(** * The Popeye scan playbook action ([playbooks/robusta_playbooks/popeye.py])

    A shallow embedding of the action [popeye_scan] and of its helpers
    [group_issues_list] and [clean_up_k8s_logs_from_job_output], together with
    the part of Python's [shlex] module the action calls.

    Conventions.
    - A Python [str] is a [string]; every operation used by the module
      ([startswith], [find], slicing, [rpartition], the character classes of
      [shlex]) looks only at ASCII delimiters, so the embedding is the same
      whether a character is read as a byte of the UTF-8 encoding or as a code
      point below 256.
    - A Python [int] is a [Z].
    - A [dict] is an association list in insertion order, the order in which
      Python iterates over it.
    - A call that may raise returns a [result]; the action itself runs in a
      state monad over the events and log records it has produced. *)

From Stdlib Require Import String Ascii List ZArith Lia Bool DecimalString.
From Stdlib Require Import Permutation.
From Equations Require Import Equations.
Import ListNotations.
Open Scope string_scope.

Set Implicit Arguments.

(** ** Exceptions and results *)

Inductive exn_class :=
| JSONDecodeError
| ValidationError
| ValueError
| TypeError
| KeyError
| OtherError.

(** An exception value: its class, which is derived from [Exception], and
    [str(e)]. *)
Record exn := Exn { exn_cls : exn_class; exn_str : string }.

(** The exceptions that are not derived from [Exception]: a clause
    [except Exception] does not catch them. *)
Inductive base_exception :=
| KeyboardInterrupt
| SystemExit
| GeneratorExit.

(** What a call does: it returns, it raises an exception derived from
    [Exception], or it raises one that is not. *)
Inductive result (A : Type) :=
| Ok (a : A)
| Raise (e : exn)
| RaiseBase (b : base_exception).
Arguments Ok {A} a.
Arguments Raise {A} e.
Arguments RaiseBase {A} b.

Definition bind {A B} (r : result A) (k : A -> result B) : result B :=
  match r with
  | Ok a => k a
  | Raise e => Raise e
  | RaiseBase b => RaiseBase b
  end.

Notation "x <- r ;; k" := (bind r (fun x => k))
  (at level 61, r at next level, right associativity).

Definition inspect {A} (a : A) : {b | a = b} := exist _ a eq_refl.

(** ** Python string primitives *)

Definition LF : string := String "010"%char EmptyString.
Definition SQ : ascii := "'"%char.
Definition DQ : ascii := "034"%char.
Definition BSL : ascii := "\"%char.

(** [c in s] for a one-character [c]. *)
Fixpoint in_str (c : ascii) (s : string) : bool :=
  match s with
  | EmptyString => false
  | String d s' => Ascii.eqb c d || in_str c s'
  end.

(** [bool(s)]: a string is true when it is not empty. *)
Definition truthy (s : string) : bool :=
  match s with
  | EmptyString => false
  | String _ _ => true
  end.

(** [s.startswith(p)] *)
Definition startswith (s p : string) : bool := String.prefix p s.

(** [s.find(sub)]: the lowest index where [sub] occurs, [-1] when it does
    not. *)
Fixpoint find_from (s sub : string) (i : Z) : Z :=
  if String.prefix sub s then i
  else match s with
       | EmptyString => (-1)%Z
       | String _ s' => find_from s' sub (i + 1)%Z
       end.

Definition find (s sub : string) : Z := find_from s sub 0%Z.

Fixpoint drop (n : nat) (s : string) : string :=
  match n, s with
  | O, _ => s
  | S _, EmptyString => EmptyString
  | S n', String _ s' => drop n' s'
  end.

(** [s[k:]], with Python's clamping and its negative indices. *)
Definition slice_from (s : string) (k : Z) : string :=
  let n := Z.of_nat (String.length s) in
  let start := if (k <? 0)%Z then Z.max 0 (n + k) else Z.min k n in
  drop (Z.to_nat start) s.

(** [s.rpartition(sep)] for a one-character separator: the scan returns the
    text before the last separator and the text after it, or [None] when
    there is no separator. *)
Fixpoint rsplit1 (s : string) (sep : ascii) : option (string * string) :=
  match s with
  | EmptyString => None
  | String c s' =>
      match rsplit1 s' sep with
      | Some (h, t) => Some (String c h, t)
      | None => if Ascii.eqb c sep then Some (EmptyString, s') else None
      end
  end.

Definition rpartition (s : string) (sep : ascii) : string * string * string :=
  match rsplit1 s sep with
  | Some (h, t) => (h, String sep EmptyString, t)
  | None => (EmptyString, EmptyString, s)
  end.

(** [s.replace(old, new)] for a one-character [old]. *)
Fixpoint replace1 (s : string) (old : ascii) (new : string) : string :=
  match s with
  | EmptyString => EmptyString
  | String c s' =>
      (if Ascii.eqb c old then new else String c EmptyString)
        ++ replace1 s' old new
  end.

(** ** [shlex.split] and [shlex.join]

    The lexer of CPython's [Lib/shlex.py] as [shlex.split(s)] configures it:
    [posix=True], [whitespace_split=True], [commenters=''] and no
    punctuation characters.  With these settings the branches for comments,
    for the punctuation state ['c'] and for the pushback of a punctuation
    character are never taken, and are left out. *)

Module shlex.

Definition wordchars : string :=
  "abcdfeghijklmnopqrstuvwxyzABCDEFGHIJKLMNOPQRSTUVWXYZ0123456789_".
Definition whitespace : string :=
  String " " (String "009" (String "013" (String "010" EmptyString))).
Definition quotes : string := String SQ (String DQ EmptyString).
Definition escape : string := String BSL EmptyString.
Definition escapedquotes : string := String DQ EmptyString.

(** The values [self.state] and [escapedstate] take. *)
Inductive lexstate :=
| AtEof                  (* None *)
| InSpace                (* ' ' *)
| InWord                 (* 'a' *)
| InQuote (q : ascii)    (* a character of [quotes] *)
| InEscape (e : ascii).  (* a character of [escape] *)

Record lexer := Lexer { instream : string; state : lexstate; token : string }.

(** The end of [read_token]: [result = self.token], and [None] instead of an
    empty result that was not quoted. *)
Definition emit (result : string) (quoted : bool) : option string :=
  if negb quoted && (result =? "") then None else Some result.

Definition push (tok : string) (c : ascii) : string :=
  tok ++ String c EmptyString.

(** The [while True] loop of [read_token].  Every iteration reads one
    character; at the end of the input [read(1)] returns the empty string and
    each state either breaks or raises. *)
Fixpoint read_loop (instream : string) (st : lexstate) (tok : string)
         (quoted : bool) (escapedstate : lexstate)
  : result (option string * lexer) :=
  let break st' ins := Ok (emit tok quoted, Lexer ins st' "") in
  match instream with
  | EmptyString =>
      match st with
      | AtEof => Ok (emit "" quoted, Lexer "" AtEof "")
      | InSpace => break AtEof ""
      | InQuote _ => Raise (Exn ValueError "No closing quotation")
      | InEscape _ => Raise (Exn ValueError "No escaped character")
      | InWord => break AtEof ""
      end
  | String nextchar rest =>
      match st with
      | AtEof => Ok (emit "" quoted, Lexer rest AtEof "")
      | InSpace =>
          if in_str nextchar whitespace then
            if negb (tok =? "") || quoted then break InSpace rest
            else read_loop rest InSpace tok quoted escapedstate
          else if in_str nextchar escape then
            read_loop rest (InEscape nextchar) tok quoted InWord
          else if in_str nextchar wordchars then
            read_loop rest InWord (String nextchar "") quoted escapedstate
          else if in_str nextchar quotes then
            read_loop rest (InQuote nextchar) tok quoted escapedstate
          else (* whitespace_split *)
            read_loop rest InWord (String nextchar "") quoted escapedstate
      | InQuote q =>
          (* quoted = True *)
          if Ascii.eqb nextchar q then
            read_loop rest InWord tok true escapedstate
          else if in_str nextchar escape && in_str q escapedquotes then
            read_loop rest (InEscape nextchar) tok true (InQuote q)
          else
            read_loop rest (InQuote q) (push tok nextchar) true escapedstate
      | InEscape e =>
          let tok1 :=
            match escapedstate with
            | InQuote q =>
                if negb (Ascii.eqb nextchar e) && negb (Ascii.eqb nextchar q)
                then push tok e
                else tok
            | _ => tok
            end in
          read_loop rest escapedstate (push tok1 nextchar) quoted escapedstate
      | InWord =>
          if in_str nextchar whitespace then
            if negb (tok =? "") || quoted then break InSpace rest
            else read_loop rest InSpace tok quoted escapedstate
          else if in_str nextchar quotes then
            read_loop rest (InQuote nextchar) tok quoted escapedstate
          else if in_str nextchar escape then
            read_loop rest (InEscape nextchar) tok quoted InWord
          else (* wordchars, quotes, or whitespace_split *)
            read_loop rest InWord (push tok nextchar) quoted escapedstate
      end
  end.

(** [read_token]: [quoted = False], [escapedstate = ' '], then the loop.
    With an empty pushback and no file stack, [get_token] is [read_token]. *)
Definition read_token (lx : lexer) : result (option string * lexer) :=
  read_loop (instream lx) (state lx) (token lx) false InSpace.

(** What is left to do: the characters not yet read, and the end of file not
    yet seen. *)
Definition fuel (lx : lexer) : nat :=
  String.length (instream lx) + match state lx with AtEof => 0 | _ => 1 end.

(** [list(lex)]: tokens are read until [get_token] returns [eof], which is
    [None] in POSIX mode; an exception of the lexer ends the iteration. *)
Equations? tokens (lx : lexer) : result (list string) by wf (fuel lx) lt :=
  tokens lx with inspect (read_token lx) => {
    | exist _ (Raise e) _ => Raise e
    | exist _ (RaiseBase b) _ => RaiseBase b
    | exist _ (Ok (None, _)) _ => Ok []
    | exist _ (Ok (Some t, lx')) H =>
        match tokens lx' with
        | Ok l => Ok (t :: l)
        | Raise e => Raise e
        | RaiseBase b => RaiseBase b
        end }.
Proof.
  (* a call that returns a token has read a character or met the end *)
  assert (Hloop : forall ins st tok quoted esc r lx1,
             st <> AtEof \/ quoted = false -> esc <> AtEof ->
             read_loop ins st tok quoted esc = Ok (Some r, lx1) ->
             fuel lx1 < fuel (Lexer ins st tok)).
  { induction ins as [|c rest IH]; intros st tok quoted esc r lx1 Hpre Hesc;
      cbn [read_loop].
    - destruct st; intros E; inversion E; subst; cbn; try lia.
      destruct Hpre as [Hpre|Hpre]; [congruence|subst; discriminate].
    - assert (Hrec : forall st' tok' q' esc',
                 st' <> AtEof -> esc' <> AtEof ->
                 read_loop rest st' tok' q' esc' = Ok (Some r, lx1) ->
                 fuel lx1 < fuel (Lexer (String c rest) st tok)).
      { intros st' tok' q' esc' Hne Hne' E.
        apply IH in E; [|now left|assumption].
        unfold fuel in *; cbn in *.
        destruct st'; [congruence|..]; destruct st; lia. }
      destruct st;
        [ destruct Hpre as [Hpre|Hpre]; [congruence|subst; discriminate]
        | | | | intros E; eapply Hrec; [| |exact E]; congruence ];
        repeat match goal with
               | |- context [if ?b then _ else _] => destruct b
               end;
        intros E; try (eapply Hrec; [| |exact E]; congruence);
        inversion E; subst; cbn; lia. }
  unfold read_token in H. apply Hloop in H.
  - destruct lx; exact H.
  - now right.
  - discriminate.
Qed.

Definition split (s : string) : result (list string) :=
  tokens (Lexer s InSpace "").

(** [_find_unsafe = re.compile(r'[^\w@%+=:,./-]', re.ASCII).search] *)
Definition is_safe (c : ascii) : bool :=
  in_str c
    "abcdefghijklmnopqrstuvwxyzABCDEFGHIJKLMNOPQRSTUVWXYZ0123456789_@%+=:,./-".

Fixpoint find_unsafe (s : string) : bool :=
  match s with
  | EmptyString => false
  | String c s' => negb (is_safe c) || find_unsafe s'
  end.

(** The replacement text of a single quote: ['"'"']. *)
Definition sq_escaped : string :=
  String SQ (String DQ (String SQ (String DQ (String SQ EmptyString)))).

Definition quote (s : string) : string :=
  if negb (truthy s) then String SQ (String SQ EmptyString)
  else if negb (find_unsafe s) then s
  else String SQ (replace1 s SQ sq_escaped) ++ String SQ EmptyString.

Definition join (split_command : list string) : string :=
  String.concat " " (map quote split_command).

End shlex.

(** ** Log cleanup *)

(** The test of the [while] loop: [logs and not logs.startswith("{")]. *)
Definition loop_test (logs : string) : bool :=
  truthy logs && negb (startswith logs "{").

(** The body of the [while] loop: the new value of [logs]. *)
Definition loop_body (logs : string) : string :=
  let endline_pos := find logs LF in
  if (endline_pos =? -1)%Z then ""
  else slice_from logs (endline_pos + 1)%Z.

Equations? clean_up_k8s_logs_from_job_output (logs : string) : string
  by wf (String.length logs) lt :=
  clean_up_k8s_logs_from_job_output logs with inspect (loop_test logs) => {
    | exist _ true _ => clean_up_k8s_logs_from_job_output (loop_body logs)
    | exist _ false _ => logs }.
Proof.
  (* the body leaves nothing, or what follows the first line end *)
  assert (Hfind : forall s i,
             find_from s LF i = (-1)%Z \/
             (i <= find_from s LF i <= i + Z.of_nat (String.length s))%Z).
  { induction s as [|c s IH]; intros i; cbn [find_from].
    - destruct (String.prefix LF ""); simpl; lia.
    - destruct (String.prefix LF (String c s)).
      + simpl String.length; lia.
      + specialize (IH (i + 1)%Z). simpl String.length. lia. }
  assert (Hdrop : forall n s,
             String.length (drop n s) = String.length s - n).
  { induction n; intros [|c s]; simpl; auto. }
  unfold loop_test, loop_body in *.
  destruct logs as [|c s]; [discriminate|].
  destruct (Z.eqb_spec (find (String c s) LF) (-1)) as [E|E]; [simpl; lia|].
  unfold slice_from, find in *.
  destruct (Hfind (String c s) 0%Z) as [R|R]; [contradiction|].
  destruct (Z.ltb_spec (find_from (String c s) LF 0 + 1) 0); [lia|].
  rewrite Hdrop. simpl String.length in *. lia.
Qed.

(** ** The report data model *)

Record Tally := {
  ok : Z;
  info : Z;
  warning : Z;
  error : Z;
  tally_score : Z
}.

Record Issue := {
  group : string;    (* __root__ | container name *)
  gvr : string;
  level : Z;         (* 0 OK, 1 INFO, 2 WARNING, 3 ERROR *)
  message : string
}.

Record PopeyeSection := {
  sanitizer : string;
  section_gvr : string;
  tally : Tally;
  issues : option (list (string * list Issue))   (* (namespace/name) -> issues *)
}.

Record PopeyeReport := {
  score : Z;
  grade : string;
  sanitizers : option (list PopeyeSection);
  errors : option (list string)
}.

(** The dictionary [{"level": issue.level, "message": issue.message}]. *)
Record LevelMessage := {
  lm_level : Z;
  lm_message : string
}.

Record GroupedIssues := {
  grouped : list LevelMessage;   (* the field [issues] *)
  grouped_level : Z              (* the field [level] *)
}.

(** [GroupedIssues()]: the model class copies the default of a field for
    every instance, so each group starts from a list of its own. *)
Definition GroupedIssues_new : GroupedIssues :=
  {| grouped := []; grouped_level := 0 |}.

(** ** [group_issues_list] *)

(** [d[k]] on the [defaultdict], followed by an update in place of the value
    found: a key that is missing is first inserted, at the end, with a new
    [GroupedIssues()]. *)
Fixpoint setdefault_update (d : list (string * GroupedIssues)) (k : string)
         (f : GroupedIssues -> GroupedIssues) : list (string * GroupedIssues) :=
  match d with
  | [] => [(k, f GroupedIssues_new)]
  | (k', g) :: d' =>
      if (k' =? k)%string then (k', f g) :: d'
      else (k', g) :: setdefault_update d' k f
  end.

Definition level_message (issue : Issue) : LevelMessage :=
  {| lm_level := level issue; lm_message := message issue |}.

(** The body of the [for] loop. *)
Definition add_issue (grouped_issues : list (string * GroupedIssues))
           (issue : Issue) : list (string * GroupedIssues) :=
  setdefault_update grouped_issues (group issue)
    (fun g =>
       {| grouped := grouped g ++ [level_message issue];
          grouped_level := Z.max (grouped_level g) (level issue) |}).

Definition group_issues_list (issues : list Issue)
  : list (string * GroupedIssues) :=
  fold_left add_issue issues [].

(** ** Rows of the report *)

Inductive ScanType := POPEYE | KRR.

Record ScanReportRow := {
  row_scan_id : string;
  priority : Z;
  scan_type : ScanType;
  namespace : string;
  name : string;
  kind : string;
  container : string;
  content : list LevelMessage
}.

(** The row of one group of a resource. *)
Definition group_row (scan_id kind namespace name : string)
           (item : string * GroupedIssues) : ScanReportRow :=
  let '(group, gIssues) := item in
  {| row_scan_id := scan_id;
     priority := grouped_level gIssues;
     scan_type := POPEYE;
     namespace := namespace;
     name := name;
     kind := kind;
     container := if negb (group =? "__root__")%string then group else "";
     content := grouped gIssues |}.

(** The rows of one resource: one per group, in the order of the groups. *)
Definition resource_rows (scan_id kind : string)
           (entry : string * list Issue) : list ScanReportRow :=
  let '(resource, issuesList) := entry in
  let '(namespace, _, name) := rpartition resource "/" in
  map (group_row scan_id kind namespace name) (group_issues_list issuesList).

Definition section_rows (scan_id : string) (section : PopeyeSection)
  : list ScanReportRow :=
  let kind := sanitizer section in
  let issues_dict := match issues section with Some d => d | None => [] end in
  flat_map (resource_rows scan_id kind) issues_dict.

(** The nested loops that fill [scan_issues]. *)
Definition scan_rows (scan_id : string) (scan_report : PopeyeReport)
  : list ScanReportRow :=
  flat_map (section_rows scan_id)
           (match sanitizers scan_report with Some l => l | None => [] end).

(** ** The job specification *)

Record ResourceRequirements := {
  limits : list (string * string)
}.

Record NodeSelectorRequirement := {
  key : string;
  operator : string;
  values : list string
}.

Record NodeSelectorTerm := {
  matchExpressions : list NodeSelectorRequirement
}.

Record NodeSelector := {
  nodeSelectorTerms : list NodeSelectorTerm
}.

Record NodeAffinity := {
  requiredDuringSchedulingIgnoredDuringExecution : option NodeSelector
}.

Record Affinity := {
  nodeAffinity : option NodeAffinity
}.

Record Container := {
  container_name : string;
  image : string;
  command : list string;
  resources : ResourceRequirements
}.

(** The fields of [PodSpec] the action sets by name, and the fields set
    through [**params.popeye_job_spec], whose values (of a type [PyVal] the
    action never inspects) are kept under their keyword. *)
Record PodSpec (PyVal : Type) := {
  serviceAccountName : string;
  containers : list Container;
  affinity : option Affinity;
  restartPolicy : string;
  other_fields : list (string * PyVal)
}.

Record PopeyeParams (PyVal : Type) := {
  service_account_name : string;
  timeout : Z;
  args : option string;
  popeye_args : string;
  popeye_job_spec : list (string * PyVal);
  spinach : string;
  custom_annotations : option (list (string * string))
}.

(** ** Events, findings and the log *)

Inductive ScanState := PENDING | FAILED.

Record JobMetadata := {
  job_name : string;
  job_namespace : string
}.

(** The keyword arguments of [event.emit_event("scan_updated", ...)]. *)
Record ScanUpdated := {
  su_scan_id : string;
  su_metadata : JobMetadata;
  su_state : ScanState;
  su_type : ScanType;
  su_start_time : Z
}.

Record PopeyeScanReportBlock := {
  block_title : string;
  block_scan_id : string;
  block_type : ScanType;
  block_start_time : Z;
  block_end_time : Z;
  block_score : Z;
  block_metadata : JobMetadata;
  results : list ScanReportRow;
  config : string
}.

Inductive FindingSource := MANUAL.
Inductive FindingType := REPORT.
Inductive EnrichmentAnnotation := SCAN.

Record Finding := {
  title : string;
  source : FindingSource;
  aggregation_key : string;
  finding_type : FindingType;
  failure : bool;
  enrichments :
    list (list PopeyeScanReportBlock * list (EnrichmentAnnotation * bool))
}.

Definition add_enrichment (finding : Finding)
           (blocks : list PopeyeScanReportBlock)
           (annotations : list (EnrichmentAnnotation * bool)) : Finding :=
  {| title := title finding;
     source := source finding;
     aggregation_key := aggregation_key finding;
     finding_type := finding_type finding;
     failure := failure finding;
     enrichments := enrichments finding ++ [(blocks, annotations)] |}.

(** What the action does to the execution event it is given. *)
Inductive emission :=
| emit_event (event_name : string) (fields : ScanUpdated)
| add_finding (finding : Finding).

Inductive log_level := LogWarning | LogError | LogException.

(** [str(x)] for an optional string and for an integer. *)
Definition str_opt (x : option string) : string :=
  match x with
  | Some s => s
  | None => "None"
  end.

Definition str_int (z : Z) : string :=
  NilZero.string_of_int (Z.to_int z).

Section Action.

(** The values of the free-form map [popeye_job_spec], and the values
    [json.loads] returns: the action passes both on without looking inside. *)
Variable PyVal : Type.
Variable JSON : Type.

(** The arguments of [RobustaJob.run_simple_job_spec]. *)
Record JobRequest := {
  job_spec : PodSpec PyVal;
  job_request_name : string;
  job_timeout : Z;
  job_custom_annotations : option (list (string * string));
  ttl_seconds_after_finished : Z;
  delete_job_post_execution : bool;
  process_name : bool
}.

(** Everything the module takes from outside: the constants read at import
    time, the helpers of other modules and of libraries, the clock and the
    random identifier. *)
Record Collaborators := {
  IMAGE : string;
  POPEYE_MEMORY_LIMIT : string;
  INSTALLATION_NAMESPACE : string;
  to_kubernetes_name : string -> string;
  (** the keywords the constructor of [PodSpec] accepts *)
  PodSpec_keyword : string -> bool;
  (** [str(uuid.uuid4())] *)
  uuid4 : string;
  (** [datetime.now()], by the number of earlier calls *)
  now : nat -> Z;
  run_simple_job_spec : JobRequest -> result string;
  json_loads : string -> result JSON;
  (** [scan[k]] *)
  getitem : JSON -> string -> result JSON;
  (** the constructor [PopeyeReport], given the entries of [d] as keywords *)
  PopeyeReport_init : JSON -> result PopeyeReport
}.

Record world := {
  emitted : list emission;
  submitted : list JobRequest;
  logged : list (log_level * string)
}.

(** An action: the world is threaded through, an exception stops the run and
    is the result. *)
Definition action (A : Type) : Type := world -> result A * world.

Definition ret {A} (a : A) : action A := fun w => (Ok a, w).

Definition lift {A} (r : result A) : action A := fun w => (r, w).

Definition seq {A B} (m : action A) (k : A -> action B) : action B :=
  fun w =>
    match m w with
    | (Ok a, w') => k a w'
    | (Raise e, w') => (Raise e, w')
    | (RaiseBase b, w') => (RaiseBase b, w')
    end.

Definition emitting (e : emission) : action unit :=
  fun w => (Ok tt, {| emitted := emitted w ++ [e];
                      submitted := submitted w;
                      logged := logged w |}).

Definition submitting (r : JobRequest) : action unit :=
  fun w => (Ok tt, {| emitted := emitted w;
                      submitted := submitted w ++ [r];
                      logged := logged w |}).

Definition logging (l : log_level) (msg : string) : action unit :=
  fun w => (Ok tt, {| emitted := emitted w;
                      submitted := submitted w;
                      logged := logged w ++ [(l, msg)] |}).

Notation "x <~ m ;; k" := (seq m (fun x => k))
  (at level 61, m at next level, right associativity).
Notation "m ;;; k" := (seq m (fun _ => k))
  (at level 61, right associativity).

Variable C : Collaborators.

(** [shlex.join(shlex.split(s))] *)
Definition sanitize (s : string) : result string :=
  l <- shlex.split s ;; Ok (shlex.join l).

(** The keywords the action passes to [PodSpec] by name. *)
Definition named_keywords : list string :=
  ["serviceAccountName"; "containers"; "affinity"; "restartPolicy"].

Definition mem (k : string) (l : list string) : bool :=
  existsb (String.eqb k) l.

(** [PodSpec(serviceAccountName=.., containers=.., affinity=..,
    restartPolicy=.., **kwargs)]: a keyword given twice is a [TypeError] of
    the call, a keyword the constructor does not know is a [TypeError] of the
    constructor.  The messages are given without the names of the callee and
    of the keyword. *)
Definition PodSpec_init (serviceAccountName : string)
           (containers : list Container) (affinity : Affinity)
           (restartPolicy : string) (kwargs : list (string * PyVal))
  : result (PodSpec PyVal) :=
  if existsb (fun kv => mem (fst kv) named_keywords) kwargs then
    Raise (Exn TypeError "got multiple values for keyword argument")
  else if negb (forallb (fun kv => PodSpec_keyword C (fst kv)) kwargs) then
    Raise (Exn TypeError "got an unexpected keyword argument")
  else
    Ok {| serviceAccountName := serviceAccountName;
          containers := containers;
          affinity := Some affinity;
          restartPolicy := restartPolicy;
          other_fields := kwargs |}.

Definition arm64_exclusion : Affinity :=
  {| nodeAffinity :=
       Some {| requiredDuringSchedulingIgnoredDuringExecution :=
                 Some {| nodeSelectorTerms :=
                           [{| matchExpressions :=
                                 [{| key := "kubernetes.io/arch";
                                     operator := "NotIn";
                                     values := ["arm64"] |}] |}] |} |} |}.

(** The value of [spec], from the parameters and the sanitized arguments. *)
Definition pod_spec (params : PopeyeParams PyVal) (sanitize_args : string)
  : result (PodSpec PyVal) :=
  let resources := {| limits := [("memory", POPEYE_MEMORY_LIMIT C)] |} in
  let affinity := arm64_exclusion in
  PodSpec_init
    (service_account_name params)
    [{| container_name := to_kubernetes_name C (IMAGE C);
        image := IMAGE C;
        command :=
          ["/bin/sh";
           "-c";
           "echo '" ++ spinach params
             ++ "' > /tmp/spinach.yaml && popeye -f /tmp/spinach.yaml "
             ++ sanitize_args ++ " -o json --force-exit-zero"];
        resources := resources |}]
    affinity
    "Never"
    (popeye_job_spec params).

(** The closure [update_state]. *)
Definition update_state (scan_id : string) (metadata : JobMetadata)
           (start_time : Z) (state : ScanState) : action unit :=
  emitting
    (emit_event "scan_updated"
       {| su_scan_id := scan_id;
          su_metadata := metadata;
          su_state := state;
          su_type := POPEYE;
          su_start_time := start_time |}).

(** The body of the [try] statement after the job has been handed to the
    runner: the last value of the variable [logs], and the report or the
    exception. *)
Definition scan_job (request : JobRequest)
  : option string * result PopeyeReport :=
  match run_simple_job_spec C request with
  | Raise e => (None, Raise e)
  | RaiseBase b => (None, RaiseBase b)
  | Ok logs =>
      let logs := clean_up_k8s_logs_from_job_output logs in
      (Some logs,
       scan <- json_loads C logs ;;
       popeye <- getitem C scan "popeye" ;;
       PopeyeReport_init C popeye)
  end.

(** The clause [except Exception as e], which catches the exceptions derived
    from [Exception] and no other. *)
Definition on_exception (params : PopeyeParams PyVal) (logs : option string)
           (e : exn) (update_state : ScanState -> action unit) : action unit :=
  (match exn_cls e with
   | JSONDecodeError =>
       logging LogException
         ("*Popeye scan job failed. Expecting json result.*" ++ LF ++ LF
            ++ " Result:" ++ LF ++ str_opt logs)
   | ValidationError =>
       logging LogException
         ("*Popeye scan job failed. Result format issue.*" ++ LF ++ LF
            ++ " " ++ exn_str e)
   | _ =>
       if (exn_str e =? "Failed to reach wait condition")%string then
         logging LogException
           ("*Popeye scan job failed. The job wait condition timed out ("
              ++ str_int (timeout params) ++ "s)*")
       else
         logging LogException
           ("*Popeye scan job unexpected error.*" ++ LF ++ " " ++ exn_str e)
   end) ;;;
  logging LogError ("Logs: " ++ str_opt logs) ;;;
  update_state FAILED.

(** The report sent when the scan succeeded. *)
Definition report_finding (params : PopeyeParams PyVal) (scan_id : string)
           (metadata : JobMetadata) (start_time end_time : Z)
           (scan_report : PopeyeReport) : Finding :=
  let scan_block :=
    {| block_title := "Popeye scan";
       block_scan_id := scan_id;
       block_type := POPEYE;
       block_start_time := start_time;
       block_end_time := end_time;
       block_score := score scan_report;
       block_metadata := metadata;
       results := scan_rows scan_id scan_report;
       config := str_opt (args params) ++ " " ++ LF ++ LF ++ " "
                   ++ spinach params |} in
  let finding :=
    {| title := "Popeye Report";
       source := MANUAL;
       aggregation_key := "PopeyeReport";
       finding_type := REPORT;
       failure := false;
       enrichments := [] |} in
  add_enrichment finding [scan_block] [(SCAN, true)].

Definition popeye_scan (params : PopeyeParams PyVal) : action unit :=
  sanitize_args <~
    (match args params with
     | Some a =>
         if truthy a then
           logging LogWarning
             "The args param for popeye_scan has been deprecated, use popeye_args instead." ;;;
           lift (sanitize a)
         else lift (sanitize (popeye_args params))
     | None => lift (sanitize (popeye_args params))
     end) ;;
  spec <~ lift (pod_spec params sanitize_args) ;;
  let start_time := now C 0 in
  let scan_id := uuid4 C in
  let job_name := "popeye-job-" ++ scan_id in
  let metadata :=
    {| job_name := job_name; job_namespace := INSTALLATION_NAMESPACE C |} in
  let update_state := update_state scan_id metadata start_time in
  update_state PENDING ;;;
  let request :=
    {| job_spec := spec;
       job_request_name := job_name;
       job_timeout := timeout params;
       job_custom_annotations := custom_annotations params;
       ttl_seconds_after_finished := 43200;
       delete_job_post_execution := false;
       process_name := false |} in
  submitting request ;;;
  match scan_job request with
  | (logs, Raise e) => on_exception params logs e update_state
  | (_, RaiseBase b) =>
      (* not an [Exception]: the clause does not catch it *)
      lift (RaiseBase b)
  | (_, Ok scan_report) =>
      emitting
        (add_finding
           (report_finding params scan_id metadata start_time (now C 1)
              scan_report))
  end.

End Action.

(** ** Reference collaborators

    A concrete choice of the collaborators, to run the action on examples:
    a decoder for the JSON texts that use no escape sequence, no fraction and
    no exponent, a strict reading of the decoded value into the report
    classes, and a job runner that returns a given text. *)

Module Reference.

#[warnings="-register-all"] Inductive json :=
| JNull
| JBool (b : bool)
| JInt (z : Z)
| JStr (s : string)
| JList (l : list json)
| JDict (d : list (string * json)).

(** [d[k] = v] on a dictionary under construction. *)
Fixpoint setitem {A} (d : list (string * A)) (k : string) (v : A)
  : list (string * A) :=
  match d with
  | [] => [(k, v)]
  | (k', v') :: d' =>
      if (k' =? k)%string then (k', v) :: d' else (k', v') :: setitem d' k v
  end.

Fixpoint lookup {A} (d : list (string * A)) (k : string) : option A :=
  match d with
  | [] => None
  | (k', v) :: d' => if (k' =? k)%string then Some v else lookup d' k
  end.

Fixpoint skip_ws (s : string) : string :=
  match s with
  | String c s' => if in_str c shlex.whitespace then skip_ws s' else s
  | EmptyString => s
  end.

Definition is_digit (c : ascii) : bool := in_str c "0123456789".

Definition digit_value (c : ascii) : Z :=
  Z.of_nat (nat_of_ascii c) - 48.

Fixpoint digits (s : string) (acc : Z) : Z * string :=
  match s with
  | String c s' =>
      if is_digit c then digits s' (10 * acc + digit_value c) else (acc, s)
  | EmptyString => (acc, s)
  end.

(** An integer without sign, then the check that no fraction or exponent
    follows. *)
Definition natural (s : string) : option (Z * string) :=
  match s with
  | String c s' =>
      if is_digit c then
        let '(z, r) :=
          if Ascii.eqb c "0" then (0%Z, s') else digits s' (digit_value c) in
        match r with
        | String d _ => if in_str d "0123456789.eE" then None else Some (z, r)
        | EmptyString => Some (z, r)
        end
      else None
  | EmptyString => None
  end.

(** The characters of a string literal up to the closing quote. *)
Fixpoint literal (s : string) : option (string * string) :=
  match s with
  | EmptyString => None
  | String c s' =>
      if Ascii.eqb c DQ then Some (EmptyString, s')
      else if Ascii.eqb c BSL || (nat_of_ascii c <? 32)%nat then None
      else match literal s' with
           | Some (t, r) => Some (String c t, r)
           | None => None
           end
  end.

Fixpoint value (n : nat) (s : string) : option (json * string) :=
  match n with
  | O => None
  | S n' =>
      match skip_ws s with
      | String "{" r =>
          match skip_ws r with
          | String "}" r' => Some (JDict [], r')
          | _ => members n' r []
          end
      | String "[" r =>
          match skip_ws r with
          | String "]" r' => Some (JList [], r')
          | _ => elements n' r []
          end
      | String "-" r =>
          match natural r with
          | Some (z, r') => Some (JInt (- z), r')
          | None => None
          end
      | String c r as t =>
          if Ascii.eqb c DQ then
            match literal r with
            | Some (x, r') => Some (JStr x, r')
            | None => None
            end
          else if String.prefix "null" t then Some (JNull, drop 4 t)
          else if String.prefix "true" t then Some (JBool true, drop 4 t)
          else if String.prefix "false" t then Some (JBool false, drop 5 t)
          else match natural t with
               | Some (z, r') => Some (JInt z, r')
               | None => None
               end
      | EmptyString => None
      end
  end

with members (n : nat) (s : string) (acc : list (string * json))
  : option (json * string) :=
  match n with
  | O => None
  | S n' =>
      match skip_ws s with
      | String c r =>
          if Ascii.eqb c DQ then
            match literal r with
            | Some (k, r1) =>
                match skip_ws r1 with
                | String ":" r2 =>
                    match value n' r2 with
                    | Some (v, r3) =>
                        match skip_ws r3 with
                        | String "," r4 => members n' r4 (setitem acc k v)
                        | String "}" r4 => Some (JDict (setitem acc k v), r4)
                        | _ => None
                        end
                    | None => None
                    end
                | _ => None
                end
            | None => None
            end
          else None
      | EmptyString => None
      end
  end

with elements (n : nat) (s : string) (acc : list json)
  : option (json * string) :=
  match n with
  | O => None
  | S n' =>
      match value n' s with
      | Some (v, r) =>
          match skip_ws r with
          | String "," r' => elements n' r' (acc ++ [v])
          | String "]" r' => Some (JList (acc ++ [v]), r')
          | _ => None
          end
      | None => None
      end
  end.

(** Every call of [value], [members] or [elements] but the first follows a
    character that was read, so the length of the text bounds their
    number. *)
Definition loads (s : string) : result json :=
  match value (S (String.length s)) s with
  | Some (v, r) =>
      match skip_ws r with
      | EmptyString => Ok v
      | String _ _ => Raise (Exn JSONDecodeError "Extra data")
      end
  | None => Raise (Exn JSONDecodeError "Expecting value")
  end.

Definition subscript (scan : json) (k : string) : result json :=
  match scan with
  | JDict d =>
      match lookup d k with
      | Some v => Ok v
      | None => Raise (Exn KeyError k)
      end
  | _ => Raise (Exn TypeError "object is not subscriptable")
  end.

Definition invalid {A} (field : string) : result A :=
  Raise (Exn ValidationError field).

Definition required {A} (d : list (string * json)) (k : string)
           (read : json -> result A) : result A :=
  match lookup d k with
  | Some v => read v
  | None => invalid k
  end.

Definition optional {A} (d : list (string * json)) (k : string)
           (read : json -> result A) : result (option A) :=
  match lookup d k with
  | Some JNull | None => Ok None
  | Some v => a <- read v ;; Ok (Some a)
  end.

Definition as_int (v : json) : result Z :=
  match v with JInt z => Ok z | _ => invalid "int" end.

Definition as_str (v : json) : result string :=
  match v with JStr s => Ok s | _ => invalid "str" end.

Fixpoint traverse {A B} (f : A -> result B) (l : list A) : result (list B) :=
  match l with
  | [] => Ok []
  | a :: l' => b <- f a ;; bs <- traverse f l' ;; Ok (b :: bs)
  end.

Definition as_list {A} (read : json -> result A) (v : json)
  : result (list A) :=
  match v with JList l => traverse read l | _ => invalid "list" end.

Definition as_dict {A} (read : json -> result A) (v : json)
  : result (list (string * A)) :=
  match v with
  | JDict d => traverse (fun kv => a <- read (snd kv) ;; Ok (fst kv, a)) d
  | _ => invalid "dict"
  end.

Definition as_Tally (v : json) : result Tally :=
  match v with
  | JDict d =>
      a <- required d "ok" as_int ;;
      b <- required d "info" as_int ;;
      c <- required d "warning" as_int ;;
      e <- required d "error" as_int ;;
      f <- required d "score" as_int ;;
      Ok {| ok := a; info := b; warning := c; error := e; tally_score := f |}
  | _ => invalid "tally"
  end.

Definition as_Issue (v : json) : result Issue :=
  match v with
  | JDict d =>
      a <- required d "group" as_str ;;
      b <- required d "gvr" as_str ;;
      c <- required d "level" as_int ;;
      e <- required d "message" as_str ;;
      Ok {| group := a; gvr := b; level := c; message := e |}
  | _ => invalid "issue"
  end.

Definition as_PopeyeSection (v : json) : result PopeyeSection :=
  match v with
  | JDict d =>
      a <- required d "sanitizer" as_str ;;
      b <- required d "gvr" as_str ;;
      c <- required d "tally" as_Tally ;;
      e <- optional d "issues" (as_dict (as_list as_Issue)) ;;
      Ok {| sanitizer := a; section_gvr := b; tally := c; issues := e |}
  | _ => invalid "section"
  end.

Definition as_PopeyeReport (v : json) : result PopeyeReport :=
  match v with
  | JDict d =>
      a <- required d "score" as_int ;;
      b <- required d "grade" as_str ;;
      c <- optional d "sanitizers" (as_list as_PopeyeSection) ;;
      e <- optional d "errors" (as_list as_str) ;;
      Ok {| score := a; grade := b; sanitizers := c; errors := e |}
  | _ => Raise (Exn TypeError "argument after ** must be a mapping")
  end.

(** The collaborators of a run in which the job prints [output]. *)
Definition collaborators (output : result string)
  : Collaborators string json :=
  Build_Collaborators
    "derailed/popeye:v0.11.1"
    "1Gi"
    "robusta"
    (fun s => s)
    (fun k => mem k ["tolerations"; "nodeSelector"; "nodeName";
                     "priorityClassName"; "imagePullSecrets"])
    "00000000-0000-4000-8000-000000000000"
    (fun n => Z.of_nat n)
    (fun _ => output)
    loads
    subscript
    as_PopeyeReport.

(** The default values of [PopeyeParams]. *)
Definition default_params : PopeyeParams string :=
  {| service_account_name := "robusta-runner-service-account";
     timeout := 300;
     args := None;
     popeye_args :=
       "-s no,ns,po,svc,sa,cm,dp,sts,ds,pv,pvc,hpa,pdb,cr,crb,ro,rb,ing,np,psp";
     popeye_job_spec := [];
     spinach := "popeye:" ++ LF ++ "    excludes:" ++ LF
       ++ "        apps/v1/daemonsets:" ++ LF
       ++ "        - name: rx:kube-system" ++ LF
       ++ "        apps/v1/deployments:" ++ LF
       ++ "        - name: rx:kube-system" ++ LF
       ++ "        v1/configmaps:" ++ LF
       ++ "        - name: rx:kube-system" ++ LF
       ++ "        v1/pods:" ++ LF
       ++ "        - name: rx:.*" ++ LF
       ++ "          codes:" ++ LF
       ++ "          - 106" ++ LF
       ++ "          - 107" ++ LF
       ++ "        - name: rx:kube-system" ++ LF
       ++ "        v1/services:" ++ LF
       ++ "        - name: rx:kube-system" ++ LF
       ++ "        v1/namespaces:" ++ LF
       ++ "        - name: kube-system";
     custom_annotations := None |}.

Definition with_args (a : string) : PopeyeParams string :=
  {| service_account_name := service_account_name default_params;
     timeout := timeout default_params;
     args := Some a;
     popeye_args := popeye_args default_params;
     popeye_job_spec := popeye_job_spec default_params;
     spinach := spinach default_params;
     custom_annotations := custom_annotations default_params |}.

Definition with_job_spec (d : list (string * string)) : PopeyeParams string :=
  {| service_account_name := service_account_name default_params;
     timeout := timeout default_params;
     args := args default_params;
     popeye_args := popeye_args default_params;
     popeye_job_spec := d;
     spinach := spinach default_params;
     custom_annotations := custom_annotations default_params |}.

Definition empty_world : world string :=
  {| emitted := []; submitted := []; logged := [] |}.

(** The minimal report of the end-to-end scenario, as a text. *)
Definition q (s : string) : string := String DQ s ++ String DQ EmptyString.

Definition minimal_text : string :=
  "{" ++ q "popeye" ++ ":{" ++ q "score" ++ ":90," ++ q "grade" ++ ":"
    ++ q "B" ++ "," ++ q "sanitizers" ++ ":[{" ++ q "sanitizer" ++ ":"
    ++ q "pod" ++ "," ++ q "gvr" ++ ":" ++ q "v1/pods" ++ "," ++ q "tally"
    ++ ":{" ++ q "ok" ++ ":1," ++ q "info" ++ ":0," ++ q "warning" ++ ":1,"
    ++ q "error" ++ ":0," ++ q "score" ++ ":90}," ++ q "issues" ++ ":{"
    ++ q "default/my-pod" ++ ":[{" ++ q "group" ++ ":" ++ q "__root__" ++ ","
    ++ q "gvr" ++ ":" ++ q "v1/pods" ++ "," ++ q "level" ++ ":2,"
    ++ q "message" ++ ":" ++ q "no resource limits" ++ "}]}}],"
    ++ q "errors" ++ ":null}}".

End Reference.

(** The minimal report of the end-to-end scenario, as the report classes
    hold it. *)
Definition minimal_report : PopeyeReport :=
  {| score := 90;
     grade := "B";
     sanitizers :=
       Some [{| sanitizer := "pod";
                section_gvr := "v1/pods";
                tally := {| ok := 1; info := 0; warning := 1; error := 0;
                            tally_score := 90 |};
                issues :=
                  Some [("default/my-pod",
                         [{| group := "__root__";
                             gvr := "v1/pods";
                             level := 2;
                             message := "no resource limits" |}])] |}];
     errors := None |}.

(** ** Vocabulary of the properties *)

(** A text without a line end. *)
Definition one_line (s : string) : Prop := in_str "010" s = false.

(** The text made of the given lines, each followed by a line end, and then
    of [body]. *)
Definition prepend_lines (lines : list string) (body : string) : string :=
  fold_right (fun line text => line ++ LF ++ text) body lines.

(** The text after [n] iterations of the loop of the cleanup. *)
Fixpoint iterate (n : nat) (logs : string) : string :=
  match n with
  | O => logs
  | S n' => iterate n' (loop_body logs)
  end.

(** The values of a list in the order of their first occurrence. *)
Fixpoint distinct (l : list string) : list string :=
  match l with
  | [] => []
  | x :: l' => x :: filter (fun y => negb (y =? x)%string) (distinct l')
  end.

(** The issues of a group, in the order of the list. *)
Definition issues_of (g : string) (issues : list Issue) : list Issue :=
  filter (fun issue => (group issue =? g)%string) issues.

Definition levels_of (g : string) (issues : list Issue) : list Z :=
  map level (issues_of g issues).

(** [m] is the largest element of [l]. *)
Definition is_maximum (m : Z) (l : list Z) : Prop :=
  In m l /\ Forall (fun x => (x <= m)%Z) l.

(** The largest of 0 and the elements of [l]. *)
Definition max_level (l : list Z) : Z := fold_right Z.max 0%Z l.


(** The value [group_issues_list] holds for a group, from the issues of the
    list. *)
Definition summary (issues : list Issue) (g : string) : GroupedIssues :=
  {| grouped := map level_message (issues_of g issues);
     grouped_level := fold_left Z.max (levels_of g issues) 0%Z |}.

(** The update [add_issue] makes to the group of the issue. *)
Definition record_issue (issue : Issue) (g : GroupedIssues) : GroupedIssues :=
  {| grouped := grouped g ++ [level_message issue];
     grouped_level := Z.max (grouped_level g) (level issue) |}.

(** The number of entries in all the groups of a dictionary. *)
Definition entries (d : list (string * GroupedIssues)) : nat :=
  list_sum (map (fun e => length (grouped (snd e))) d).

(** The row of a group of a resource, as the description of the rows has it:
    the priority is the largest of 0 and the levels of the group, and the
    container is the group unless the group is the root. *)
Definition row_of_group (scan_id kind resource : string)
           (issuesList : list Issue) (g : string) : ScanReportRow :=
  {| row_scan_id := scan_id;
     priority := max_level (levels_of g issuesList);
     scan_type := POPEYE;
     namespace := fst (fst (rpartition resource "/"));
     name := snd (rpartition resource "/");
     kind := kind;
     container := if (g =? "__root__")%string then "" else g;
     content := map level_message (issues_of g issuesList) |}.

(** The rows of a resource give every group the largest of its levels. *)
Definition priority_is_maximum_of_group (issuesList : list Issue)
           (rows : list ScanReportRow) : Prop :=
  Forall2 (fun g row => is_maximum (priority row) (levels_of g issuesList))
          (distinct (map group issuesList)) rows.

(** No issue has a negative level: the levels are those of the scale of the
    data model, 0 to 3, or above. *)
Definition levels_not_negative (issues : list Issue) : Prop :=
  Forall (fun issue => (0 <= level issue)%Z) issues.

(** The invariant of [GroupedIssues]: the level is the largest of the levels
    of the issues of the group. *)
Definition level_is_maximum (gIssues : GroupedIssues) : Prop :=
  is_maximum (grouped_level gIssues) (map lm_level (grouped gIssues)).

(** The container of the rows of a resource: the empty text for the row of
    the root group, the group for any other row. *)
Definition containers_follow_groups (issuesList : list Issue)
           (rows : list ScanReportRow) : Prop :=
  Forall2 (fun g row =>
             container row = if (g =? "__root__")%string then "" else g)
          (distinct (map group issuesList)) rows.

(** Issues for the examples. *)
Definition issue_of (g : string) (l : Z) (m : string) : Issue :=
  {| group := g; gvr := "v1/pods"; level := l; message := m |}.

Definition example_issues : list Issue :=
  [issue_of "__root__" 2 "no resource limits";
   issue_of "nginx" 1 "unnamed port";
   issue_of "__root__" 3 "pod is not running";
   issue_of "sidecar" 0 "ok";
   issue_of "nginx" 2 "no liveness probe"].

(** Whether [shlex.quote] puts its argument between quotes. *)
Definition needs_quotes (t : string) : bool :=
  negb (truthy t) || shlex.find_unsafe t.

(** A text and what its sanitization gives. *)
Definition raw_args : string :=
  "-s 'po,svc'  --lint-level  warn -l  it\'s".

Definition sanitized_args : string :=
  "-s po,svc --lint-level warn -l 'it'" ++ String DQ "'" ++ String DQ "'s'".

Section ActionVocabulary.

Variables PyVal JSON : Type.
Variable C : Collaborators PyVal JSON.
Variable params : PopeyeParams PyVal.

(** The argument text the action sanitizes. *)
Definition chosen_args : string :=
  match args params with
  | Some a => if truthy a then a else popeye_args params
  | None => popeye_args params
  end.

(** The job specification of an invocation, or the exception that prevents
    it. *)
Definition build_pod_spec : result (PodSpec PyVal) :=
  sanitize_args <- sanitize (chosen_args) ;;
  pod_spec C params sanitize_args.

(** The overrides of the job specification that the constructor of [PodSpec]
    accepts next to the keywords the action gives. *)
Definition overrides_accepted : bool :=
  forallb (fun kv => negb (mem (fst kv) named_keywords)
                     && PodSpec_keyword C (fst kv))
          (popeye_job_spec params).

Definition metadata_of : JobMetadata :=
  {| job_name := "popeye-job-" ++ uuid4 C;
     job_namespace := INSTALLATION_NAMESPACE C |}.

(** The request the action hands to the job runner. *)
Definition job_request (spec : PodSpec PyVal) : JobRequest PyVal :=
  {| job_spec := spec;
     job_request_name := "popeye-job-" ++ uuid4 C;
     job_timeout := timeout params;
     job_custom_annotations := custom_annotations params;
     ttl_seconds_after_finished := 43200;
     delete_job_post_execution := false;
     process_name := false |}.

(** The emission of a state of the scan. *)
Definition state_event (state : ScanState) : emission :=
  emit_event "scan_updated"
    {| su_scan_id := uuid4 C;
       su_metadata := metadata_of;
       su_state := state;
       su_type := POPEYE;
       su_start_time := now C 0 |}.

Definition finding_event (scan_report : PopeyeReport) : emission :=
  add_finding
    (report_finding params (uuid4 C) metadata_of (now C 0) (now C 1)
       scan_report).

(** The run of the action once the job specification is there. *)
Definition run_with (spec : PodSpec PyVal) (w : world PyVal)
  : result unit * world PyVal :=
  let w1 := {| emitted := emitted w ++ [state_event PENDING];
               submitted := submitted w ++ [job_request spec];
               logged := logged w |} in
  match scan_job C (job_request spec) with
  | (logs, Raise e) =>
      on_exception params logs e
        (update_state (uuid4 C) metadata_of (now C 0)) w1
  | (_, RaiseBase b) => (RaiseBase b, w1)
  | (_, Ok scan_report) =>
      (Ok tt, {| emitted := emitted w1 ++ [finding_event scan_report];
                 submitted := submitted w1;
                 logged := logged w1 |})
  end.

(** The world after the deprecation warning, when the action logs it. *)
Definition warned (w : world PyVal) : world PyVal :=
  match args params with
  | Some a =>
      if truthy a then
        {| emitted := emitted w;
           submitted := submitted w;
           logged := logged w ++
             [(LogWarning,
               "The args param for popeye_scan has been deprecated, use popeye_args instead.")] |}
      else w
  | None => w
  end.

(** The scan did not produce a report: the job specification could not be
    built, or the job, the cleanup or the parsing raised, whatever the
    exception. *)
Definition scan_failed : Prop :=
  match build_pod_spec with
  | Ok spec =>
      match snd (scan_job C (job_request spec)) with
      | Ok _ => False
      | Raise _ | RaiseBase _ => True
      end
  | Raise _ | RaiseBase _ => True
  end.

End ActionVocabulary.

Definition emitted_state (e : emission) : option ScanState :=
  match e with
  | emit_event _ fields => Some (su_state fields)
  | add_finding _ => None
  end.

Definition is_finding (e : emission) : bool :=
  match e with
  | emit_event _ _ => false
  | add_finding _ => true
  end.

(** One pair of lifecycle events: the state PENDING, then a report or the
    state FAILED. *)
Definition lifecycle_pair (l : list emission) : Prop :=
  exists first second,
    l = [first; second] /\
    emitted_state first = Some PENDING /\
    (is_finding second = true \/ emitted_state second = Some FAILED).

(** The action returns without an exception after it has emitted one pair of
    lifecycle events. *)
Definition completes_with_lifecycle_pair {PyVal JSON : Type}
           (C : Collaborators PyVal JSON) (params : PopeyeParams PyVal)
           (w : world PyVal) : Prop :=
  fst (popeye_scan C params w) = Ok tt /\
  exists l,
    emitted (snd (popeye_scan C params w)) = (emitted w ++ l)%list /\
    lifecycle_pair l.

(** A node selector term that no node of architecture arm64 satisfies. *)
Definition term_excludes_arm64 (t : NodeSelectorTerm) : bool :=
  existsb (fun r => (key r =? "kubernetes.io/arch")%string
                    && (operator r =? "NotIn")%string
                    && mem "arm64" (values r))
          (matchExpressions t).

(** The node affinity required at scheduling rules out arm64: a node has to
    satisfy one of the terms, and none admits arm64. *)
Definition excludes_arm64 {PyVal : Type} (spec : PodSpec PyVal) : bool :=
  match affinity spec with
  | Some a =>
      match nodeAffinity a with
      | Some na =>
          match requiredDuringSchedulingIgnoredDuringExecution na with
          | Some selector =>
              forallb term_excludes_arm64 (nodeSelectorTerms selector)
          | None => false
          end
      | None => false
      end
  | None => false
  end.

(** The policy every job specification carries: the affinity is the one the
    action writes, it rules out arm64, and the pod is never restarted. *)
Definition fixed_policy {PyVal : Type} (spec : PodSpec PyVal) : Prop :=
  affinity spec = Some arm64_exclusion /\
  excludes_arm64 spec = true /\
  restartPolicy spec = "Never".

(** The raw output of the failure scenario. *)
Definition not_json_logs : string :=
  "2024-01-01 info starting" ++ LF ++ "not json".

(** ** Vocabulary of further properties *)

(** Every character of [s] is one of [cls]. *)
Fixpoint all_in (s cls : string) : bool :=
  match s with
  | EmptyString => true
  | String c s' => in_str c cls && all_in s' cls
  end.

(** A token [shlex.quote] leaves as it is. *)
Definition plain_token (t : string) : Prop :=
  truthy t = true /\ shlex.find_unsafe t = false.

(** The parameters with another value of [popeye_args]. *)
Definition set_popeye_args {PyVal : Type} (params : PopeyeParams PyVal)
           (a : string) : PopeyeParams PyVal :=
  {| service_account_name := service_account_name params;
     timeout := timeout params;
     args := args params;
     popeye_args := a;
     popeye_job_spec := popeye_job_spec params;
     spinach := spinach params;
     custom_annotations := custom_annotations params |}.

(** The record of the deprecation warning. *)
Definition deprecation_warning : log_level * string :=
  (LogWarning,
   "The args param for popeye_scan has been deprecated, use popeye_args instead.").

(** Whether the parameter [args] is given: not [None] and not empty. *)
Definition args_given {PyVal : Type} (params : PopeyeParams PyVal) : bool :=
  match args params with
  | Some a => truthy a
  | None => false
  end.

(** The report blocks an emission carries. *)
Definition emission_blocks (e : emission) : list PopeyeScanReportBlock :=
  match e with
  | emit_event _ _ => []
  | add_finding finding => flat_map fst (enrichments finding)
  end.

(** The scan identifiers an emission carries: the one of the event, or the
    ones of the report blocks and of their rows. *)
Definition emission_scan_ids (e : emission) : list string :=
  match e with
  | emit_event _ fields => [su_scan_id fields]
  | add_finding _ =>
      flat_map (fun b => block_scan_id b :: map row_scan_id (results b))
               (emission_blocks e)
  end.

(** The job names and the start times an emission carries. *)
Definition emission_job_names (e : emission) : list string :=
  match e with
  | emit_event _ fields => [job_name (su_metadata fields)]
  | add_finding _ =>
      map (fun b => job_name (block_metadata b)) (emission_blocks e)
  end.

Definition emission_start_times (e : emission) : list Z :=
  match e with
  | emit_event _ fields => [su_start_time fields]
  | add_finding _ => map block_start_time (emission_blocks e)
  end.

(** The issue lists of a report, section after section. *)
Definition report_issue_lists (scan_report : PopeyeReport)
  : list (list Issue) :=
  flat_map
    (fun section =>
       map snd (match issues section with Some d => d | None => [] end))
    (match sanitizers scan_report with Some l => l | None => [] end).

(** The text has none of the separator. *)
Definition lacks (sep : ascii) (s : string) : Prop := in_str sep s = false.

(** The row of the minimal report. *)
Definition minimal_row (scan_id : string) : ScanReportRow :=
  {| row_scan_id := scan_id;
     priority := 2;
     scan_type := POPEYE;
     namespace := "default";
     name := "my-pod";
     kind := "pod";
     container := "";
     content := [{| lm_level := 2; lm_message := "no resource limits" |}] |}.

(** An emission speaks of the scan the collaborators name: its identifiers
    are the one drawn by [uuid4], its job names the name made from it, its
    start times the first reading of the clock. *)
Definition carries_identity {PyVal JSON : Type}
           (C : Collaborators PyVal JSON) (e : emission) : Prop :=
  Forall (eq (uuid4 C)) (emission_scan_ids e) /\
  Forall (eq ("popeye-job-" ++ uuid4 C)) (emission_job_names e) /\
  Forall (eq (now C 0)) (emission_start_times e).

(** No character of the text is white space, a quote or the escape
    character of the lexer. *)
Fixpoint all_plain (s : string) : bool :=
  match s with
  | EmptyString => true
  | String c s' =>
      negb (in_str c shlex.whitespace || in_str c shlex.quotes
            || in_str c shlex.escape)
      && all_plain s'
  end.

(** The words of the command line of the container, given the tokens of the
    argument text. *)
Definition command_words (spinach : string) (tokens : list string)
  : list string :=
  (["echo"; spinach; ">"; "/tmp/spinach.yaml"; "&&"; "popeye"; "-f";
    "/tmp/spinach.yaml"] ++ tokens ++ ["-o"; "json"; "--force-exit-zero"])%list.

(** * Properties *)

(** ** Log cleanup *)

Section LogCleanup.

Local Abbreviation clean_up := clean_up_k8s_logs_from_job_output.

(** The function satisfies the equation of the [while] loop. *)
Lemma clean_up_unfold logs :
  clean_up logs = if loop_test logs then clean_up (loop_body logs) else logs.
Proof.
  rewrite clean_up_k8s_logs_from_job_output_equation_1.
  destruct (inspect (loop_test logs)) as [[] E]; simpl; rewrite E; reflexivity.
Qed.

Lemma clean_up_exit logs : loop_test logs = false -> clean_up logs = logs.
Proof. intros E. rewrite clean_up_unfold, E. reflexivity. Qed.

Lemma clean_up_step logs :
  loop_test logs = true -> clean_up logs = clean_up (loop_body logs).
Proof. intros E. rewrite clean_up_unfold, E. reflexivity. Qed.

Lemma loop_test_false logs :
  loop_test logs = false <-> logs = "" \/ startswith logs "{" = true.
Proof.
  unfold loop_test. destruct logs as [|c s]; simpl.
  - split; auto.
  - rewrite negb_false_iff. split; [auto|intros [H|H]; [discriminate|exact H]].
Qed.

(** An iteration makes the text shorter. *)
Lemma find_from_range s sub i :
  find_from s sub i = (-1)%Z \/
  (i <= find_from s sub i <= i + Z.of_nat (String.length s))%Z.
Proof.
  revert i; induction s as [|c s IH]; intros i; cbn [find_from].
  - destruct (String.prefix sub ""); simpl; lia.
  - destruct (String.prefix sub (String c s)).
    + simpl String.length; lia.
    + specialize (IH (i + 1)%Z). simpl String.length. lia.
Qed.

Lemma drop_length n s : String.length (drop n s) = String.length s - n.
Proof. revert s; induction n; intros [|c s]; simpl; auto. Qed.

Lemma loop_body_shorter logs :
  loop_test logs = true ->
  String.length (loop_body logs) < String.length logs.
Proof.
  unfold loop_test, loop_body.
  destruct logs as [|c s]; [discriminate|intros _].
  destruct (Z.eqb_spec (find (String c s) LF) (-1)) as [E|E]; [simpl; lia|].
  unfold slice_from, find in *.
  destruct (find_from_range (String c s) LF 0) as [R|R]; [contradiction|].
  destruct (Z.ltb_spec (find_from (String c s) LF 0 + 1) 0); [lia|].
  rewrite drop_length. simpl String.length in *. lia.
Qed.

(** Induction along the iterations of the loop. *)
Lemma loop_ind (P : string -> Prop) :
  (forall logs, loop_test logs = false -> P logs) ->
  (forall logs, loop_test logs = true -> P (loop_body logs) -> P logs) ->
  forall logs, P logs.
Proof.
  intros Hexit Hstep logs.
  induction logs as [logs IH]
    using (well_founded_induction
             (Wf_nat.well_founded_ltof _ String.length)).
  destruct (loop_test logs) eqn:E.
  - apply Hstep; [exact E|]. apply IH. apply loop_body_shorter, E.
  - apply Hexit, E.
Qed.

Lemma clean_up_result logs :
  clean_up logs = "" \/ startswith (clean_up logs) "{" = true.
Proof.
  induction logs as [logs E|logs E IH] using loop_ind.
  - rewrite clean_up_exit by exact E. apply loop_test_false, E.
  - rewrite clean_up_step by exact E. exact IH.
Qed.

Lemma clean_up_noop logs :
  startswith logs "{" = true -> clean_up logs = logs.
Proof. intros H. apply clean_up_exit, loop_test_false. now right. Qed.

Lemma prefix_char a c s :
  String.prefix (String a "") (String c s) = Ascii.eqb c a.
Proof.
  cbn [String.prefix].
  destruct (Ascii.ascii_dec a c) as [<-|N].
  - rewrite Ascii.eqb_refl. destruct s; reflexivity.
  - symmetry. apply Ascii.eqb_neq. congruence.
Qed.

Lemma prefix_LF c s : String.prefix LF (String c s) = Ascii.eqb c "010".
Proof. apply prefix_char. Qed.

Lemma find_from_line line rest i :
  one_line line ->
  find_from (line ++ LF ++ rest) LF i = (i + Z.of_nat (String.length line))%Z.
Proof.
  unfold one_line. revert i; induction line as [|c line IH]; intros i H.
  - cbn [append String.length]. unfold LF at 1. cbn [append find_from].
    rewrite prefix_LF. cbn. lia.
  - cbn [in_str] in H. apply orb_false_iff in H as [Hc Hl].
    cbn [append find_from]. rewrite prefix_LF.
    rewrite Ascii.eqb_sym in Hc. rewrite Hc, IH by exact Hl.
    cbn [String.length]. lia.
Qed.

Lemma find_from_none s i :
  one_line s -> find_from s LF i = (-1)%Z.
Proof.
  unfold one_line. revert i; induction s as [|c s IH]; intros i H.
  - reflexivity.
  - cbn [in_str] in H. apply orb_false_iff in H as [Hc Hl].
    cbn [find_from]. rewrite prefix_LF, Ascii.eqb_sym, Hc. now apply IH.
Qed.

Lemma drop_app line rest : drop (String.length line) (line ++ rest) = rest.
Proof. induction line; simpl; auto. Qed.

Lemma append_assoc (s t u : string) : (s ++ t) ++ u = s ++ t ++ u.
Proof. induction s; simpl; congruence. Qed.

Lemma length_append (s t : string) :
  String.length (s ++ t) = String.length s + String.length t.
Proof. induction s; simpl; auto. Qed.

(** One iteration removes the first line and its line end. *)
Lemma loop_body_line line rest :
  one_line line -> loop_body (line ++ LF ++ rest) = rest.
Proof.
  intros H. unfold loop_body, find. rewrite find_from_line by exact H.
  destruct (Z.eqb_spec (0 + Z.of_nat (String.length line)) (-1)); [lia|].
  unfold slice_from.
  destruct (Z.ltb_spec (0 + Z.of_nat (String.length line) + 1) 0); [lia|].
  rewrite !length_append. unfold LF at 1. cbn [String.length].
  replace (Z.to_nat _) with (String.length (line ++ LF)).
  - rewrite <- append_assoc. apply drop_app.
  - rewrite length_append. unfold LF. cbn [String.length]. lia.
Qed.

(** Without a line end the iteration leaves nothing. *)
Lemma loop_body_last s : one_line s -> loop_body s = "".
Proof.
  intros H. unfold loop_body, find. now rewrite find_from_none.
Qed.

(** Every text is a first line followed by a line end and the rest, or a
    single line. *)
Lemma first_line s :
  one_line s \/
  exists line rest, s = line ++ LF ++ rest /\ one_line line.
Proof.
  unfold one_line. induction s as [|c s IH].
  - now left.
  - destruct (Ascii.eqb c "010") eqn:Ec.
    + right. exists "", s. apply Ascii.eqb_eq in Ec. subst c. auto.
    + destruct IH as [IH|(line & rest & -> & Hl)].
      * left. cbn [in_str]. now rewrite Ascii.eqb_sym, Ec.
      * right. exists (String c line), rest. split; [reflexivity|].
        cbn [in_str]. now rewrite Ascii.eqb_sym, Ec.
Qed.

Lemma loop_test_line line rest :
  startswith line "{" = false -> loop_test (line ++ LF ++ rest) = true.
Proof.
  unfold loop_test, startswith. destruct line as [|c line]; intros H.
  - reflexivity.
  - cbn [append truthy andb]. rewrite prefix_char in *. now rewrite H.
Qed.

Lemma clean_up_prefix_lines lines body :
  Forall (fun line => startswith line "{" = false /\ one_line line) lines ->
  clean_up (prepend_lines lines body) = clean_up body.
Proof.
  induction 1 as [|line lines [Hs Hl] _ IH]; [reflexivity|].
  cbn [prepend_lines fold_right].
  rewrite clean_up_step by (apply loop_test_line; exact Hs).
  rewrite loop_body_line by exact Hl. exact IH.
Qed.

(** A text none of whose lines starts with an opening brace is removed
    entirely. *)
Lemma clean_up_no_brace lines last :
  Forall (fun line => startswith line "{" = false /\ one_line line) lines ->
  startswith last "{" = false -> one_line last ->
  clean_up (prepend_lines lines last) = "".
Proof.
  intros Hlines Hs Hl. rewrite clean_up_prefix_lines by exact Hlines.
  destruct last as [|c last]; [reflexivity|].
  rewrite clean_up_step, loop_body_last by
      (exact Hl || (unfold loop_test; now rewrite Hs)).
  reflexivity.
Qed.

Lemma loop_iterations logs :
  exists n,
    n <= String.length logs /\
    (forall k, k < n -> loop_test (iterate k logs) = true) /\
    loop_test (iterate n logs) = false /\
    clean_up logs = iterate n logs.
Proof.
  induction logs as [logs E|logs E (n & Hn & Hk & Hend & Hres)] using loop_ind.
  - exists 0. repeat split; [lia|lia|exact E|now apply clean_up_exit].
  - exists (S n). pose proof (loop_body_shorter logs E). repeat split.
    + lia.
    + intros [|k] Hlt; [exact E|]. apply Hk. lia.
    + exact Hend.
    + rewrite clean_up_step by exact E. exact Hres.
Qed.

End LogCleanup.

(** C2: the result of the cleanup is empty or starts with an opening brace;
    a text that starts with an opening brace is returned as it is; and lines
    put in front of a body that starts with an opening brace, each ended by a
    line end and none starting with a brace or holding a line end, are all
    removed, which leaves exactly the body. *)
Theorem cleanup_contract :
  (forall logs,
      clean_up_k8s_logs_from_job_output logs = "" \/
      startswith (clean_up_k8s_logs_from_job_output logs) "{" = true) /\
  (forall logs,
      startswith logs "{" = true ->
      clean_up_k8s_logs_from_job_output logs = logs) /\
  (forall lines body,
      startswith body "{" = true ->
      Forall (fun line => startswith line "{" = false /\ one_line line) lines ->
      clean_up_k8s_logs_from_job_output (prepend_lines lines body) = body).
Proof.
  split; [exact clean_up_result|]. split; [exact clean_up_noop|].
  intros lines body Hb Hl.
  rewrite clean_up_prefix_lines by exact Hl. now apply clean_up_noop.
Qed.

Lemma cleanup_contract_witness :
  clean_up_k8s_logs_from_job_output ("{" ++ LF ++ "}") = "{" ++ LF ++ "}" /\
  clean_up_k8s_logs_from_job_output
    (prepend_lines ["2024-01-01 info starting"; ""; "W0101 } {"]
                   ("{" ++ LF ++ "}"))
  = "{" ++ LF ++ "}".
Proof.
  destruct cleanup_contract as (_ & Hnoop & Hlines). split.
  - apply Hnoop. reflexivity.
  - apply Hlines; [reflexivity|]. repeat constructor.
Defined.

(** C9: the loop of the cleanup ends on every text.  An iteration either
    leaves the empty text, when no line end is left, or removes the first
    line and its line end; either way the text gets strictly shorter, so the
    loop makes at most as many iterations as the text has characters and the
    function returns the text the last iteration leaves. *)
Theorem cleanup_terminates logs :
  (loop_test logs = true ->
   (loop_body logs = "" \/
    exists line rest,
      logs = line ++ LF ++ rest /\ one_line line /\ loop_body logs = rest) /\
   String.length (loop_body logs) < String.length logs) /\
  exists n,
    n <= String.length logs /\
    (forall k, k < n -> loop_test (iterate k logs) = true) /\
    loop_test (iterate n logs) = false /\
    clean_up_k8s_logs_from_job_output logs = iterate n logs.
Proof.
  split; [|apply loop_iterations].
  intros E. split; [|apply loop_body_shorter, E].
  destruct (first_line logs) as [H|(line & rest & -> & H)].
  - left. now apply loop_body_last.
  - right. exists line, rest. repeat split; [exact H|now apply loop_body_line].
Qed.

Lemma cleanup_terminates_witness :
  String.length (loop_body ("k8s log" ++ LF ++ "{}")) <
  String.length ("k8s log" ++ LF ++ "{}").
Proof.
  apply (cleanup_terminates ("k8s log" ++ LF ++ "{}")). reflexivity.
Defined.

(** ** Grouping *)

Section Grouping.

Local Open Scope list_scope.

Lemma mem_In k l : mem k l = true <-> In k l.
Proof.
  unfold mem. rewrite existsb_exists. split.
  - intros (x & Hx & E). apply String.eqb_eq in E. now subst.
  - intros H. exists k. split; [exact H|apply String.eqb_refl].
Qed.

Lemma distinct_In x l : In x (distinct l) <-> In x l.
Proof.
  induction l as [|y l IH]; [reflexivity|].
  cbn [distinct In]. rewrite filter_In, IH, negb_true_iff, String.eqb_neq.
  destruct (string_dec y x); intuition congruence.
Qed.

Lemma distinct_NoDup l : NoDup (distinct l).
Proof.
  induction l as [|y l IH]; cbn [distinct]; constructor.
  - rewrite filter_In, negb_true_iff, String.eqb_neq. intuition.
  - now apply NoDup_filter.
Qed.

(** The number of distinct values does not depend on the occurrence that is
    kept. *)
Lemma distinct_length l :
  length (distinct l) = length (nodup string_dec l).
Proof.
  apply Nat.le_antisymm; apply NoDup_incl_length;
    auto using distinct_NoDup, NoDup_nodup;
    intros x; rewrite distinct_In, nodup_In; auto.
Qed.

Lemma distinct_snoc l x :
  distinct (l ++ [x]) =
  if mem x l then distinct l else (distinct l ++ [x]).
Proof.
  induction l as [|y l IH]; [reflexivity|].
  cbn [app distinct mem existsb]. fold (mem x l). rewrite IH.
  destruct (String.eqb_spec x y) as [->|N]; cbn [orb].
  - destruct (mem y l); [reflexivity|].
    rewrite filter_app. cbn [filter]. rewrite String.eqb_refl. cbn [negb].
    now rewrite app_nil_r.
  - destruct (mem x l); [reflexivity|].
    rewrite filter_app. cbn [filter].
    apply String.eqb_neq in N. rewrite N. reflexivity.
Qed.

Lemma summary_snoc issues issue g :
  summary (issues ++ [issue]) g =
  if (group issue =? g)%string then record_issue issue (summary issues g)
  else summary issues g.
Proof.
  unfold summary, levels_of, issues_of. rewrite filter_app. cbn [filter].
  destruct (group issue =? g)%string.
  - rewrite !map_app, fold_left_app. reflexivity.
  - now rewrite app_nil_r.
Qed.

Lemma summary_absent issues g :
  ~ In g (map group issues) -> summary issues g = GroupedIssues_new.
Proof.
  intros H. unfold summary, levels_of, issues_of.
  replace (filter _ issues) with (@nil Issue); [reflexivity|].
  symmetry. induction issues as [|i issues IH]; [reflexivity|].
  cbn [filter]. destruct (String.eqb_spec (group i) g) as [E|N].
  - exfalso. apply H. left. exact E.
  - apply IH. intros Hin. apply H. now right.
Qed.

(** The update of a dictionary that holds [F g] under every key [g]. *)
Lemma setdefault_update_keys (F F' : string -> GroupedIssues) f k ks :
  NoDup ks ->
  F' k = f (if mem k ks then F k else GroupedIssues_new) ->
  (forall g, In g ks -> g <> k -> F' g = F g) ->
  setdefault_update (map (fun g => (g, F g)) ks) k f =
  map (fun g => (g, F' g)) (if mem k ks then ks else (ks ++ [k])).
Proof.
  induction 1 as [|g ks Hg Hnd IH]; intros Hk Hother.
  - cbn. now rewrite Hk.
  - cbn [map setdefault_update mem existsb]. fold (mem k ks).
    rewrite String.eqb_sym.
    destruct (String.eqb_spec k g) as [->|N]; cbn [orb] in *.
    + rewrite (proj2 (mem_In g (g :: ks))) in Hk by now left.
      cbn [map]. rewrite Hk. f_equal. apply map_ext_in.
      intros a Ha. rewrite Hother; [reflexivity|now right|congruence].
    + replace (if mem k ks then g :: ks else (g :: ks) ++ [k])
        with (g :: (if mem k ks then ks else ks ++ [k]))
        by now destruct (mem k ks).
      cbn [map]. rewrite (Hother g) by (auto with datatypes).
      f_equal. apply IH.
      * rewrite Hk. cbn [mem existsb]. fold (mem k ks).
        apply String.eqb_neq in N. now rewrite N.
      * intros; apply Hother; auto with datatypes.
Qed.

Lemma group_issues_list_snoc issues issue :
  group_issues_list (issues ++ [issue]) =
  add_issue (group_issues_list issues) issue.
Proof. unfold group_issues_list. now rewrite fold_left_app. Qed.

(** The dictionary [group_issues_list] returns: the groups in the order of
    their first issue, each with its summary. *)
Lemma group_issues_list_summary issues :
  group_issues_list issues =
  map (fun g => (g, summary issues g)) (distinct (map group issues)).
Proof.
  induction issues as [|issue issues IH] using rev_ind; [reflexivity|].
  rewrite group_issues_list_snoc, IH, map_app. cbn [map].
  rewrite distinct_snoc. unfold add_issue.
  fold (record_issue issue).
  rewrite (setdefault_update_keys (summary issues)
             (summary (issues ++ [issue]))).
  - f_equal. replace (mem (group issue) (distinct (map group issues)))
      with (mem (group issue) (map group issues)); [reflexivity|].
    apply eq_true_iff_eq. rewrite !mem_In. symmetry. apply distinct_In.
  - apply distinct_NoDup.
  - rewrite summary_snoc, String.eqb_refl.
    destruct (mem (group issue) (distinct (map group issues))) eqn:E;
      [reflexivity|].
    rewrite summary_absent; [reflexivity|].
    intros Hin. apply distinct_In, mem_In in Hin. congruence.
  - intros g _ N. rewrite summary_snoc.
    destruct (String.eqb_spec (group issue) g); [congruence|reflexivity].
Qed.

Lemma fold_left_max l a :
  (0 <= a)%Z -> fold_left Z.max l a = Z.max a (max_level l).
Proof.
  revert a; induction l as [|x l IH]; intros a Ha.
  - cbn. lia.
  - cbn [fold_left]. rewrite IH by lia.
    change (max_level (x :: l)) with (Z.max x (max_level l)). lia.
Qed.

Lemma max_level_upper l : Forall (fun x => (x <= max_level l)%Z) l.
Proof.
  induction l as [|x l IH]; constructor; cbn [max_level fold_right];
    fold (max_level l); [lia|].
  eapply Forall_impl; [|exact IH]. cbn. intros; lia.
Qed.

Lemma max_level_attained l : max_level l = 0%Z \/ In (max_level l) l.
Proof.
  induction l as [|x l IH]; [now left|].
  cbn [max_level fold_right]. fold (max_level l).
  destruct (Z.max_spec x (max_level l)) as [[_ ->]|[_ ->]].
  - destruct IH; [now left|right; now right].
  - right. now left.
Qed.

Lemma max_level_nonneg l : (0 <= max_level l)%Z.
Proof.
  induction l as [|x l IH]; cbn [max_level fold_right]; [lia|].
  fold (max_level l). lia.
Qed.

(** [max_level l] is the largest of 0 and the elements of [l]. *)
Lemma max_level_spec l : is_maximum (max_level l) (0%Z :: l).
Proof.
  split.
  - destruct (max_level_attained l) as [->|H]; [now left|now right].
  - constructor; [apply max_level_nonneg|apply max_level_upper].
Qed.

(** It is the largest element of [l] as soon as one of them is not
    negative. *)
Lemma max_level_maximum l :
  Exists (fun x => (0 <= x)%Z) l -> is_maximum (max_level l) l.
Proof.
  intros H. split; [|apply max_level_upper].
  destruct (max_level_attained l) as [E|Hin]; [|exact Hin].
  apply Exists_exists in H as (x & Hx & Hpos).
  pose proof (max_level_upper l) as U. rewrite Forall_forall in U.
  specialize (U x Hx). replace (max_level l) with x by lia. exact Hx.
Qed.

Lemma summary_level issues g :
  grouped_level (summary issues g) = max_level (levels_of g issues).
Proof.
  cbn. rewrite fold_left_max by lia.
  pose proof (max_level_nonneg (levels_of g issues)). lia.
Qed.

Lemma resource_rows_groups scan_id kind resource issuesList :
  resource_rows scan_id kind (resource, issuesList) =
  map (row_of_group scan_id kind resource issuesList)
      (distinct (map group issuesList)).
Proof.
  unfold resource_rows. destruct (rpartition resource "/") as [[ns sep] nm] eqn:E.
  rewrite group_issues_list_summary, map_map. apply map_ext. intros g.
  unfold group_row, row_of_group. rewrite E, summary_level. cbn [fst snd].
  f_equal. now destruct (g =? "__root__")%string.
Qed.

Lemma flat_map_length {A B} (f : A -> list B) l :
  length (flat_map f l) = list_sum (map (fun a => length (f a)) l).
Proof.
  induction l as [|a l IH]; [reflexivity|].
  cbn [flat_map map list_sum]. now rewrite length_app, IH.
Qed.

Lemma entries_cons k g d :
  entries ((k, g) :: d) = length (grouped g) + entries d.
Proof. reflexivity. Qed.

Lemma entries_setdefault_update d k issue :
  entries (setdefault_update d k (record_issue issue)) = S (entries d).
Proof.
  induction d as [|[k' g] d IH].
  - reflexivity.
  - cbn [setdefault_update]. destruct (k' =? k)%string; rewrite !entries_cons.
    + cbn [record_issue grouped]. rewrite length_app. cbn [length]. lia.
    + rewrite IH. lia.
Qed.

Lemma entries_fold issues d :
  entries (fold_left add_issue issues d) = entries d + length issues.
Proof.
  revert d; induction issues as [|i issues IH]; intros d; cbn [fold_left length].
  - lia.
  - rewrite IH. unfold add_issue. fold (record_issue i).
    rewrite entries_setdefault_update. lia.
Qed.

End Grouping.

(** The rows of a resource for any integer levels: one row per distinct
    group, in the order in which the groups first occur, with the largest of
    0 and the levels of the group as priority. *)
Lemma rows_of_resource_by_group scan_id kind resource issuesList :
  let rows := resource_rows scan_id kind (resource, issuesList) in
  length rows = length (nodup string_dec (map group issuesList)) /\
  rows = map (row_of_group scan_id kind resource issuesList)
             (distinct (map group issuesList)) /\
  forall g,
    let row := row_of_group scan_id kind resource issuesList g in
    container row = (if (g =? "__root__")%string then "" else g) /\
    is_maximum (priority row) (0%Z :: levels_of g issuesList) /\
    (Exists (fun l => (0 <= l)%Z) (levels_of g issuesList) ->
     is_maximum (priority row) (levels_of g issuesList)).
Proof.
  cbv zeta. rewrite resource_rows_groups, length_map, distinct_length.
  split; [reflexivity|]. split; [reflexivity|].
  intros g. split; [reflexivity|].
  split; [apply max_level_spec|apply max_level_maximum].
Qed.

Section GroupedRows.

Local Open Scope list_scope.

(** A group of issues without negative level has a level that is not
    negative. *)
Lemma group_has_level g issuesList :
  levels_not_negative issuesList ->
  In g (map group issuesList) ->
  Exists (fun l => (0 <= l)%Z) (levels_of g issuesList).
Proof.
  intros Hpos Hg. apply in_map_iff in Hg as (issue & <- & Hin).
  apply Exists_exists. exists (level issue). split.
  - unfold levels_of, issues_of. apply in_map, filter_In.
    split; [exact Hin|apply String.eqb_refl].
  - unfold levels_not_negative in Hpos. rewrite Forall_forall in Hpos.
    now apply Hpos.
Qed.

Lemma Forall2_map_right {A B} (P : A -> B -> Prop) (f : A -> B) l :
  Forall (fun a => P a (f a)) l -> Forall2 P l (map f l).
Proof. induction 1; cbn [map]; constructor; assumption. Qed.

Lemma summary_levels issues g :
  map lm_level (grouped (summary issues g)) = levels_of g issues.
Proof. cbn [grouped summary]. unfold levels_of. now rewrite map_map. Qed.

End GroupedRows.

(** C3: for issues that share a resource key and whose levels are not
    negative, as are the levels 0 to 3 of the data model, the number of rows
    of the resource is the number of distinct groups of the issues; the
    priority of the row of a group is the largest level among the issues of
    the group, and the level of every [GroupedIssues] is the largest of the
    levels it lists; the container of the row of the group __root__ is the
    empty string and the container of any other row is its group. *)
Theorem rows_of_resource_grouped scan_id kind resource issuesList :
  levels_not_negative issuesList ->
  let rows := resource_rows scan_id kind (resource, issuesList) in
  length rows = length (nodup string_dec (map group issuesList)) /\
  priority_is_maximum_of_group issuesList rows /\
  Forall level_is_maximum (map snd (group_issues_list issuesList)) /\
  containers_follow_groups issuesList rows.
Proof.
  intros Hpos. cbv zeta.
  unfold priority_is_maximum_of_group, containers_follow_groups.
  rewrite resource_rows_groups, length_map, distinct_length.
  rewrite group_issues_list_summary, map_map. cbn [snd].
  assert (Hmax : forall g,
             In g (distinct (map group issuesList)) ->
             is_maximum (max_level (levels_of g issuesList))
                        (levels_of g issuesList)).
  { intros g Hg. apply max_level_maximum, group_has_level; [exact Hpos|].
    now apply (proj1 (distinct_In _ _)). }
  split; [reflexivity|]. split; [|split].
  - apply Forall2_map_right, Forall_forall. intros g Hg. now apply Hmax.
  - apply Forall_map, Forall_forall. intros g Hg.
    unfold level_is_maximum. rewrite summary_level, summary_levels.
    now apply Hmax.
  - apply Forall2_map_right, Forall_forall. now intros g _.
Qed.

Lemma rows_of_resource_grouped_witness :
  let rows := resource_rows "scan" "pod" ("default/my-pod", example_issues) in
  length rows = 3 /\
  priority_is_maximum_of_group example_issues rows /\
  map priority rows = [3; 2; 0]%Z /\
  map container rows = [""; "nginx"; "sidecar"].
Proof.
  destruct (rows_of_resource_grouped "scan" "pod" "default/my-pod"
              (issuesList := example_issues)) as (Hlen & Hmax & _ & _).
  - unfold levels_not_negative.
    repeat (apply Forall_cons; [discriminate|]). apply Forall_nil.
  - split; [exact Hlen|]. split; [exact Hmax|]. split; reflexivity.
Defined.

(** C7: the number of rows of a section is the sum, over the resources of
    its issues, of the number of distinct groups of the resource. *)
Theorem section_row_count scan_id section :
  length (section_rows scan_id section) =
  list_sum
    (map (fun entry => length (nodup string_dec (map group (snd entry))))
         (match issues section with Some d => d | None => [] end)).
Proof.
  unfold section_rows. rewrite flat_map_length. f_equal.
  apply map_ext. intros [resource issuesList].
  now rewrite resource_rows_groups, length_map, distinct_length.
Qed.

(** C10: [group_issues_list] loses and repeats nothing.  The lengths of the
    lists of the groups add up to the length of the list of issues, and the
    list of a group holds the level and message of the issues of the group,
    in the order of the list of issues. *)
Theorem group_issues_list_partition issues :
  list_sum (map (fun e => length (grouped (snd e))) (group_issues_list issues))
  = length issues /\
  map (fun e => (fst e, grouped (snd e))) (group_issues_list issues)
  = map (fun g => (g, map level_message (issues_of g issues)))
        (distinct (map group issues)).
Proof.
  split.
  - apply (entries_fold issues []).
  - rewrite group_issues_list_summary, map_map. reflexivity.
Qed.

(** C4: the minimal report gives exactly one row. *)
Theorem minimal_report_rows scan_id :
  scan_rows scan_id minimal_report =
  [{| row_scan_id := scan_id;
      priority := 2;
      scan_type := POPEYE;
      namespace := "default";
      name := "my-pod";
      kind := "pod";
      container := "";
      content := [{| lm_level := 2; lm_message := "no resource limits" |}] |}].
Proof. reflexivity. Qed.

(** The text of the minimal report decodes to the report above. *)
Lemma minimal_text_report :
  (scan <- Reference.loads Reference.minimal_text ;;
   popeye <- Reference.subscript scan "popeye" ;;
   Reference.as_PopeyeReport popeye) = Ok minimal_report.
Proof. vm_compute. reflexivity. Qed.

(** The scenario end to end: the job prints a line of log and the text of
    the minimal report, and the action emits the state PENDING and the
    finding that holds the rows of the report. *)
Lemma minimal_scan_run :
  let C := Reference.collaborators
             (Ok ("2024-01-01 info starting" ++ LF ++ Reference.minimal_text)) in
  popeye_scan C Reference.default_params Reference.empty_world =
  (Ok tt,
   {| emitted :=
        [state_event C PENDING;
         finding_event C Reference.default_params minimal_report];
      submitted :=
        match build_pod_spec C Reference.default_params with
        | Ok spec => [job_request C Reference.default_params spec]
        | Raise _ | RaiseBase _ => []
        end;
      logged := [] |}).
Proof. vm_compute. reflexivity. Qed.

(** ** The sanitization of the arguments *)

Section Sanitization.

Import shlex.

Lemma tokens_unfold lx :
  tokens lx =
  match read_token lx with
  | Raise e => Raise e
  | RaiseBase b => RaiseBase b
  | Ok (None, _) => Ok []
  | Ok (Some t, lx') =>
      match tokens lx' with
      | Ok l => Ok (t :: l)
      | Raise e => Raise e
      | RaiseBase b => RaiseBase b
      end
  end.
Proof.
  rewrite tokens_equation_1.
  destruct (inspect (read_token lx)) as [[[[t|] lx']|e|b] E]; simpl;
    rewrite E; reflexivity.
Qed.

(** A safe character is none of the characters the lexer treats
    specially. *)
Lemma special_not_safe c :
  in_str c whitespace || in_str c escape || in_str c quotes = true ->
  is_safe c = false.
Proof.
  cbn [in_str whitespace escape quotes]. rewrite !orb_false_r. intros H.
  repeat (apply orb_prop in H as [H|H]);
    apply Ascii.eqb_eq in H; subst c; reflexivity.
Qed.

Lemma safe_plain c :
  is_safe c = true ->
  in_str c whitespace = false /\ in_str c escape = false /\
  in_str c quotes = false.
Proof.
  intros Hs.
  destruct (in_str c whitespace) eqn:W, (in_str c escape) eqn:E,
    (in_str c quotes) eqn:Q; auto;
    rewrite special_not_safe in Hs by (rewrite W, E, Q; reflexivity);
    discriminate.
Qed.

Lemma push_append tok c s : push tok c ++ s = tok ++ String c s.
Proof. unfold push. now rewrite append_assoc. Qed.

Lemma append_empty (s : string) : s ++ "" = s.
Proof. induction s; simpl; congruence. Qed.

(** A run of safe characters in a word is added to the token. *)
Lemma read_safe_run s rest tok quoted esc :
  find_unsafe s = false ->
  read_loop (s ++ rest) InWord tok quoted esc =
  read_loop rest InWord (tok ++ s) quoted esc.
Proof.
  revert tok; induction s as [|c s IH]; intros tok H.
  - now rewrite append_empty.
  - cbn [find_unsafe] in H. apply orb_false_iff in H as [Hc Hs].
    apply negb_false_iff, safe_plain in Hc as (W & E & Q).
    cbn [append read_loop]. rewrite W, Q, E, IH by exact Hs.
    now rewrite push_append.
Qed.

(** A safe character starts a word. *)
Lemma read_safe_first c rest esc :
  is_safe c = true ->
  read_loop (String c rest) InSpace "" false esc =
  read_loop rest InWord (String c "") false esc.
Proof.
  intros Hc. apply safe_plain in Hc as (W & E & Q).
  cbn [read_loop]. rewrite W, E, Q. now destruct (in_str c wordchars).
Qed.

(** In a quotation the flag [quoted] is set whatever it was. *)
Lemma read_in_quote ins q tok quoted esc :
  read_loop ins (InQuote q) tok quoted esc =
  read_loop ins (InQuote q) tok true esc.
Proof. destruct ins; reflexivity. Qed.

(** The text between the single quotes gives back the token: a single quote
    closes the quotation, is read between double quotes, and opens the
    quotation again. *)
Lemma read_quoted_run s rest tok esc :
  read_loop (replace1 s SQ sq_escaped ++ rest) (InQuote SQ) tok true esc =
  read_loop rest (InQuote SQ) (tok ++ s) true esc.
Proof.
  revert tok; induction s as [|c s IH]; intros tok.
  - now rewrite append_empty.
  - cbn [replace1]. destruct (Ascii.eqb c SQ) eqn:E.
    + apply Ascii.eqb_eq in E. subst c. rewrite append_assoc.
      change (read_loop (sq_escaped ++ replace1 s SQ sq_escaped ++ rest)
                        (InQuote SQ) tok true esc)
        with (read_loop (replace1 s SQ sq_escaped ++ rest)
                        (InQuote SQ) (push tok SQ) true esc).
      now rewrite IH, push_append.
    + rewrite append_assoc. cbn [append read_loop]. rewrite E.
      replace (in_str c escape && in_str SQ escapedquotes) with false
        by (now rewrite andb_false_r).
      now rewrite IH, push_append.
Qed.

(** Reading a quoted token leaves the lexer in a word that holds the
    token. *)
Lemma read_quote t tail :
  read_loop (quote t ++ tail) InSpace "" false InSpace =
  read_loop tail InWord t (needs_quotes t) InSpace.
Proof.
  unfold quote, needs_quotes. destruct t as [|c t]; [reflexivity|].
  cbn [truthy negb orb]. destruct (find_unsafe (String c t)) eqn:U; cbn [negb].
  - rewrite append_assoc.
    change (read_loop (String SQ (replace1 (String c t) SQ sq_escaped)
                         ++ String SQ "" ++ tail) InSpace "" false InSpace)
      with (read_loop (replace1 (String c t) SQ sq_escaped
                         ++ String SQ "" ++ tail) (InQuote SQ) "" false InSpace).
    rewrite read_in_quote, read_quoted_run. reflexivity.
  - cbn [find_unsafe] in U. apply orb_false_iff in U as [Hc Ht].
    apply negb_false_iff in Hc.
    cbn [append]. rewrite read_safe_first by exact Hc.
    now rewrite read_safe_run by exact Ht.
Qed.

Lemma emit_quoted t : emit t (needs_quotes t) = Some t.
Proof. destruct t; reflexivity || (unfold emit; cbn; now rewrite andb_false_r). Qed.

Lemma read_token_last t :
  read_token (Lexer (quote t) InSpace "") = Ok (Some t, Lexer "" AtEof "").
Proof.
  unfold read_token. cbn [instream state token].
  rewrite <- (append_empty (quote t)), read_quote.
  cbn [read_loop]. now rewrite emit_quoted.
Qed.

Lemma read_token_next t rest :
  read_token (Lexer (quote t ++ " " ++ rest) InSpace "") =
  Ok (Some t, Lexer rest InSpace "").
Proof.
  unfold read_token. cbn [instream state token].
  rewrite read_quote. cbn [append read_loop in_str whitespace].
  rewrite emit_quoted.
  replace (negb (t =? "") || needs_quotes t) with true; [reflexivity|].
  destruct t; reflexivity.
Qed.

Lemma join_cons t t' l : join (t :: t' :: l) = quote t ++ " " ++ join (t' :: l).
Proof. reflexivity. Qed.

(** Splitting the joined tokens gives the tokens back. *)
Lemma split_join l : split (join l) = Ok l.
Proof.
  unfold split. induction l as [|t l IH].
  - rewrite tokens_unfold. reflexivity.
  - destruct l as [|t' l].
    + change (join [t]) with (quote t).
      rewrite tokens_unfold, read_token_last, tokens_unfold. reflexivity.
    + rewrite join_cons, tokens_unfold, read_token_next, IH. reflexivity.
Qed.

End Sanitization.

(** C6: sanitizing sanitized arguments changes nothing.  Whenever the
    arguments can be split, joining the tokens and sanitizing the result
    once more gives the same text. *)
Theorem sanitize_idempotent s s1 :
  sanitize s = Ok s1 -> sanitize s1 = Ok s1.
Proof.
  unfold sanitize, bind.
  destruct (shlex.split s) as [l|e|b]; [|discriminate..].
  intros [= <-]. now rewrite split_join.
Qed.

Lemma sanitize_idempotent_witness :
  sanitize raw_args = Ok sanitized_args /\
  sanitize sanitized_args = Ok sanitized_args.
Proof.
  split; [reflexivity|].
  apply (sanitize_idempotent raw_args). reflexivity.
Defined.

(** ** The action *)

Section ActionProperties.

Variables PyVal JSON : Type.
Variable C : Collaborators PyVal JSON.
Variable params : PopeyeParams PyVal.

Local Open Scope list_scope.

Lemma warned_emitted w : emitted (warned params w) = emitted w.
Proof. unfold warned. destruct (args params) as [a|]; [destruct (truthy a)|]; reflexivity. Qed.

Lemma warned_submitted w : submitted (warned params w) = submitted w.
Proof. unfold warned. destruct (args params) as [a|]; [destruct (truthy a)|]; reflexivity. Qed.

Lemma popeye_scan_run w :
  popeye_scan C params w =
  match build_pod_spec C params with
  | Ok spec => run_with C params spec (warned params w)
  | Raise e => (Raise e, warned params w)
  | RaiseBase b => (RaiseBase b, warned params w)
  end.
Proof.
  unfold popeye_scan, build_pod_spec, chosen_args, warned, run_with, seq, lift,
    logging, emitting, submitting, update_state, bind.
  destruct (args params) as [a|]; [destruct (truthy a)|];
    cbn [emitted submitted logged];
    match goal with
    | |- context [sanitize ?x] => destruct (sanitize x) as [sanitize_args|e|b]
    end; try reflexivity;
    destruct (pod_spec C params sanitize_args) as [spec|e|b];
    try reflexivity;
    cbn [emitted submitted logged];
    destruct (scan_job C _) as [logs [report|e|b]]; reflexivity.
Qed.

Lemma on_exception_run logs e w :
  let '(r, w') :=
    on_exception params logs e
      (update_state (uuid4 C) (metadata_of C) (now C 0)) w in
  r = Ok tt /\
  emitted w' = emitted w ++ [state_event C FAILED] /\
  submitted w' = submitted w.
Proof.
  unfold on_exception, seq, logging, update_state, emitting.
  destruct (exn_cls e); try destruct (exn_str e =? _)%string;
    cbn [emitted submitted logged]; auto.
Qed.

(** What the action emits and submits, in every case. *)
Lemma popeye_scan_effects w :
  let '(r, w') := popeye_scan C params w in
  match build_pod_spec C params with
  | Raise e =>
      r = Raise e /\ emitted w' = emitted w /\ submitted w' = submitted w
  | RaiseBase b =>
      r = RaiseBase b /\ emitted w' = emitted w /\ submitted w' = submitted w
  | Ok spec =>
      submitted w' = submitted w ++ [job_request C params spec] /\
      match snd (scan_job C (job_request C params spec)) with
      | Ok scan_report =>
          r = Ok tt /\
          emitted w' =
            emitted w ++
              [state_event C PENDING; finding_event C params scan_report]
      | Raise _ =>
          r = Ok tt /\
          emitted w' =
            emitted w ++ [state_event C PENDING; state_event C FAILED]
      | RaiseBase b =>
          r = RaiseBase b /\
          emitted w' = emitted w ++ [state_event C PENDING]
      end
  end.
Proof.
  rewrite popeye_scan_run. destruct (build_pod_spec C params) as [spec|e|b].
  - unfold run_with.
    destruct (scan_job C (job_request C params spec)) as [logs [report|e|b]];
      cbn [snd].
    + cbn [emitted submitted]. rewrite warned_emitted, warned_submitted.
      rewrite <- app_assoc. auto.
    + match goal with
      | |- context [on_exception params logs e ?u ?w1] =>
          pose proof (on_exception_run logs e w1) as H;
          destruct (on_exception params logs e u w1) as [r w']
      end.
      destruct H as (-> & -> & ->). cbn [emitted submitted].
      rewrite warned_emitted, warned_submitted, <- app_assoc. auto.
    + cbn [emitted submitted]. rewrite warned_emitted, warned_submitted.
      auto.
  - rewrite warned_emitted, warned_submitted. auto.
  - rewrite warned_emitted, warned_submitted. auto.
Qed.

Lemma pod_spec_fixed sanitize_args spec :
  pod_spec C params sanitize_args = Ok spec -> fixed_policy spec.
Proof.
  unfold pod_spec, PodSpec_init.
  destruct (existsb _ _); [discriminate|].
  destruct (negb _); [discriminate|].
  intros [= <-]. repeat split; reflexivity.
Qed.

Lemma build_pod_spec_fixed spec :
  build_pod_spec C params = Ok spec -> fixed_policy spec.
Proof.
  unfold build_pod_spec, bind.
  destruct (sanitize (chosen_args params)); [|discriminate..].
  apply pod_spec_fixed.
Qed.

Lemma build_pod_spec_defined tokens :
  shlex.split (chosen_args params) = Ok tokens ->
  overrides_accepted C params = true ->
  exists spec, build_pod_spec C params = Ok spec.
Proof.
  unfold build_pod_spec, sanitize, bind, overrides_accepted. intros -> H.
  unfold pod_spec, PodSpec_init.
  replace (existsb _ (popeye_job_spec params)) with false.
  - replace (forallb _ (popeye_job_spec params)) with true;
      [cbn [negb]; eauto|].
    symmetry. apply forallb_forall. intros kv Hin.
    rewrite forallb_forall in H. apply H in Hin.
    now apply andb_prop in Hin.
  - symmetry. apply not_true_is_false. intros E.
    apply existsb_exists in E as (kv & Hin & Hk).
    rewrite forallb_forall in H. apply H in Hin.
    apply andb_prop in Hin as [Hn _]. rewrite Hk in Hn. discriminate.
Qed.

End ActionProperties.

(** C1, as the code has it: whenever the job specification is built, that
    is, the argument text can be split and the overrides of the
    specification are accepted by [PodSpec], the action emits the state
    PENDING and then, whatever the job runner and the parsing of its output
    do, the report when the job, the cleanup and the parsing succeeded, and
    the state FAILED when one of them raised an exception derived from
    [Exception]; in both cases it returns without an exception, having
    emitted exactly this one pair of lifecycle events.  An exception that is
    not derived from [Exception], such as [KeyboardInterrupt], is not caught:
    it reaches the caller after the state PENDING and nothing more is
    emitted.  When the job specification is not built, the exception reaches
    the caller and nothing is emitted. *)
Theorem popeye_scan_lifecycle {PyVal JSON : Type}
        (C : Collaborators PyVal JSON) (params : PopeyeParams PyVal)
        (w : world PyVal) :
  (forall spec,
      build_pod_spec C params = Ok spec ->
      match snd (scan_job C (job_request C params spec)) with
      | Ok scan_report =>
          completes_with_lifecycle_pair C params w /\
          emitted (snd (popeye_scan C params w)) =
            (emitted w ++
               [state_event C PENDING;
                finding_event C params scan_report])%list
      | Raise _ =>
          completes_with_lifecycle_pair C params w /\
          emitted (snd (popeye_scan C params w)) =
            (emitted w ++ [state_event C PENDING; state_event C FAILED])%list
      | RaiseBase b =>
          fst (popeye_scan C params w) = RaiseBase b /\
          emitted (snd (popeye_scan C params w)) =
            (emitted w ++ [state_event C PENDING])%list
      end) /\
  (forall e,
      build_pod_spec C params = Raise e ->
      fst (popeye_scan C params w) = Raise e /\
      emitted (snd (popeye_scan C params w)) = emitted w).
Proof.
  pose proof (popeye_scan_effects C params w) as H.
  unfold completes_with_lifecycle_pair.
  destruct (popeye_scan C params w) as [r w']. cbn [fst snd].
  split.
  - intros spec E. rewrite E in H. destruct H as (_ & H).
    destruct (snd (scan_job C (job_request C params spec)));
      destruct H as (-> & Hem); (split; [|exact Hem]); try reflexivity;
      (split; [reflexivity|]); rewrite Hem;
      (eexists; split; [reflexivity|]);
      (do 2 eexists; split; [reflexivity|]); (split; [reflexivity|]); auto.
  - intros e E. rewrite E in H. destruct H as (-> & -> & _). auto.
Qed.

Lemma popeye_scan_lifecycle_witness :
  completes_with_lifecycle_pair
    (Reference.collaborators (Ok Reference.minimal_text))
    Reference.default_params Reference.empty_world.
Proof.
  destruct (build_pod_spec
              (Reference.collaborators (Ok Reference.minimal_text))
              Reference.default_params) as [spec|e|b] eqn:E;
    [|vm_compute in E; discriminate E..].
  pose proof (proj1 (popeye_scan_lifecycle
                       (Reference.collaborators (Ok Reference.minimal_text))
                       Reference.default_params Reference.empty_world)
                    spec E) as H.
  assert (Hs : snd (scan_job
                      (Reference.collaborators (Ok Reference.minimal_text))
                      (job_request
                         (Reference.collaborators (Ok Reference.minimal_text))
                         Reference.default_params spec))
               = Ok minimal_report) by (vm_compute; reflexivity).
  rewrite Hs in H. exact (proj1 H).
Defined.

(** A job runner interrupted from the keyboard: the exception reaches the
    caller after the state PENDING, and nothing is logged. *)
Lemma interrupted_scan_run :
  let C := Reference.collaborators (RaiseBase KeyboardInterrupt) in
  let run := popeye_scan C Reference.default_params Reference.empty_world in
  fst run = RaiseBase KeyboardInterrupt /\
  emitted (snd run) = [state_event C PENDING] /\
  logged (snd run) = [].
Proof. vm_compute. auto. Qed.

(** C1 as stated fails: an argument text with a quote that is not closed
    makes the action raise before it has emitted anything. *)
Lemma lifecycle_counterexample :
  ~ completes_with_lifecycle_pair
      (Reference.collaborators (Ok Reference.minimal_text))
      (Reference.with_args "'") Reference.empty_world.
Proof. intros [H _]. vm_compute in H. discriminate H. Qed.

(** C5: a job output none of whose lines starts with an opening brace, such
    as the one of the failure scenario, is cleaned to the empty text; when
    the parsing of the empty text raises, the action emits the state PENDING
    and the state FAILED and nothing else, so no finding.  More generally a
    scan that failed emits no finding. *)
Theorem failed_scan_emits_no_report {PyVal JSON : Type}
        (C : Collaborators PyVal JSON) (params : PopeyeParams PyVal)
        (w : world PyVal) :
  (forall lines last,
      Forall (fun line => startswith line "{" = false /\ one_line line) lines ->
      startswith last "{" = false -> one_line last ->
      clean_up_k8s_logs_from_job_output (prepend_lines lines last) = "") /\
  (forall spec logs e,
      build_pod_spec C params = Ok spec ->
      run_simple_job_spec C (job_request C params spec) = Ok logs ->
      clean_up_k8s_logs_from_job_output logs = "" ->
      json_loads C "" = Raise e ->
      fst (popeye_scan C params w) = Ok tt /\
      emitted (snd (popeye_scan C params w)) =
        (emitted w ++ [state_event C PENDING; state_event C FAILED])%list) /\
  (scan_failed C params ->
   exists l,
     emitted (snd (popeye_scan C params w)) = (emitted w ++ l)%list /\
     Forall (fun e => is_finding e = false) l).
Proof.
  pose proof (popeye_scan_effects C params w) as H.
  destruct (popeye_scan C params w) as [r w']. cbn [fst snd].
  split; [exact clean_up_no_brace|]. split.
  - intros spec logs e E Hrun Hclean Hjson. rewrite E in H.
    destruct H as (_ & H). unfold scan_job in H.
    rewrite Hrun, Hclean, Hjson in H. exact H.
  - unfold scan_failed. destruct (build_pod_spec C params) as [spec|e|b].
    + destruct H as (_ & H).
      destruct (snd (scan_job C (job_request C params spec)));
        intros Hf; [destruct Hf|..]; destruct H as (_ & ->);
        (eexists; split; [reflexivity|]); repeat constructor.
    + intros _. destruct H as (_ & -> & _). exists []. split.
      * now rewrite app_nil_r.
      * constructor.
    + intros _. destruct H as (_ & -> & _). exists []. split.
      * now rewrite app_nil_r.
      * constructor.
Qed.

Lemma failed_scan_emits_no_report_witness :
  let C := Reference.collaborators (Ok not_json_logs) in
  clean_up_k8s_logs_from_job_output not_json_logs = "" /\
  emitted
    (snd (popeye_scan C Reference.default_params Reference.empty_world)) =
  [state_event C PENDING; state_event C FAILED].
Proof.
  destruct (failed_scan_emits_no_report
              (Reference.collaborators (Ok not_json_logs))
              Reference.default_params Reference.empty_world)
    as (Hclean & Hrun & _).
  assert (E : clean_up_k8s_logs_from_job_output not_json_logs = "").
  { apply (Hclean ["2024-01-01 info starting"] "not json");
      [repeat constructor|reflexivity|reflexivity]. }
  split; [exact E|].
  refine (proj2 (Hrun _ not_json_logs _ _ _ E _)).
  - vm_compute. reflexivity.
  - reflexivity.
  - vm_compute. reflexivity.
Defined.

(** C8: every job specification the action builds, and so every one it
    hands to the job runner, requires at scheduling a node whose
    architecture is not arm64 and has the restart policy Never, whatever the
    parameters; and a specification is built and handed over whenever the
    argument text can be split and the overrides are accepted. *)
Theorem job_specification_policy {PyVal JSON : Type}
        (C : Collaborators PyVal JSON) (params : PopeyeParams PyVal)
        (w : world PyVal) :
  (forall spec, build_pod_spec C params = Ok spec -> fixed_policy spec) /\
  (exists l,
      submitted (snd (popeye_scan C params w)) = (submitted w ++ l)%list /\
      Forall (fun request => fixed_policy (job_spec request)) l) /\
  (forall tokens,
      shlex.split (chosen_args params) = Ok tokens ->
      overrides_accepted C params = true ->
      exists spec,
        build_pod_spec C params = Ok spec /\
        submitted (snd (popeye_scan C params w)) =
          (submitted w ++ [job_request C params spec])%list).
Proof.
  pose proof (popeye_scan_effects C params w) as H.
  destruct (popeye_scan C params w) as [r w']. cbn [snd].
  split; [exact (build_pod_spec_fixed C params)|]. split.
  - destruct (build_pod_spec C params) as [spec|e|b] eqn:E.
    + destruct H as (-> & _). eexists. split; [reflexivity|].
      constructor; [|constructor]. exact (build_pod_spec_fixed C params E).
    + destruct H as (_ & _ & ->). exists []. split.
      * now rewrite app_nil_r.
      * constructor.
    + destruct H as (_ & _ & ->). exists []. split.
      * now rewrite app_nil_r.
      * constructor.
  - intros tokens Hs Ho.
    destruct (build_pod_spec_defined C params Hs Ho) as [spec E].
    exists spec. split; [exact E|]. rewrite E in H. now destruct H as (-> & _).
Qed.

Lemma job_specification_policy_witness :
  exists spec,
    build_pod_spec (Reference.collaborators (Ok Reference.minimal_text))
                   (Reference.with_job_spec [("nodeName", "node-1")])
    = Ok spec /\
    fixed_policy spec.
Proof.
  destruct (job_specification_policy
              (Reference.collaborators (Ok Reference.minimal_text))
              (Reference.with_job_spec [("nodeName", "node-1")])
              Reference.empty_world) as (Hfixed & _ & Hbuilt).
  destruct (Hbuilt ["-s";
                    "no,ns,po,svc,sa,cm,dp,sts,ds,pv,pvc,hpa,pdb,cr,crb,ro,rb,ing,np,psp"]
                   eq_refl eq_refl) as (spec & E & _).
  exists spec. split; [exact E|]. apply Hfixed, E.
Defined.

(** * Further properties *)

(** ** Log cleanup *)

Section CleanupMore.

Local Abbreviation clean_up := clean_up_k8s_logs_from_job_output.

Lemma clean_up_empty : clean_up "" = "".
Proof. now apply clean_up_exit. Qed.

Lemma clean_up_removed logs :
  exists removed,
    logs = removed ++ clean_up logs /\
    (removed = "" \/ clean_up logs = "" \/ exists p, removed = p ++ LF).
Proof.
  induction logs as [logs E|logs E (removed & Hsplit & Hshape)] using loop_ind.
  - exists "". rewrite clean_up_exit by exact E. auto.
  - rewrite clean_up_step by exact E.
    destruct (first_line logs) as [H|(line & rest & -> & H)].
    + rewrite loop_body_last in * by exact H. rewrite clean_up_empty.
      exists logs. split; [now rewrite append_empty|auto].
    + rewrite loop_body_line in * by exact H.
      exists (line ++ LF ++ removed). split.
      * rewrite Hsplit at 1. now rewrite !append_assoc.
      * destruct Hshape as [->|[Hr|(p & ->)]]; [|auto|].
        -- right. right. exists line. now rewrite append_empty.
        -- right. right. exists (line ++ LF ++ p). now rewrite !append_assoc.
Qed.

End CleanupMore.

(** X1: the cleanup only removes leading lines.  Its result is the end of
    the text it is given, and what it removed in front is nothing, or ends
    with a line end, or is the whole text. *)
Theorem cleanup_removes_leading_lines logs :
  exists removed,
    logs = removed ++ clean_up_k8s_logs_from_job_output logs /\
    (removed = "" \/
     clean_up_k8s_logs_from_job_output logs = "" \/
     exists p, removed = p ++ LF).
Proof. apply clean_up_removed. Qed.

(** X2: cleaning a cleaned text changes nothing. *)
Theorem cleanup_idempotent logs :
  clean_up_k8s_logs_from_job_output (clean_up_k8s_logs_from_job_output logs)
  = clean_up_k8s_logs_from_job_output logs.
Proof.
  apply clean_up_exit, loop_test_false.
  destruct (clean_up_result logs); auto.
Qed.

(** ** Sanitization *)

Section SanitizationMore.

Lemma read_loop_raises ins st tok quoted esc e :
  shlex.read_loop ins st tok quoted esc = Raise e ->
  e = Exn ValueError "No closing quotation" \/
  e = Exn ValueError "No escaped character".
Proof.
  revert st tok quoted esc.
  induction ins as [|c rest IH]; intros st tok quoted esc;
    cbn [shlex.read_loop].
  - destruct st; intros [= <-] || discriminate; auto.
  - destruct st;
      repeat match goal with
             | |- context [if ?b then _ else _] => destruct b
             end;
      try discriminate; apply IH.
Qed.

Lemma tokens_raises lx e :
  shlex.tokens lx = Raise e ->
  e = Exn ValueError "No closing quotation" \/
  e = Exn ValueError "No escaped character".
Proof.
  funelim (shlex.tokens lx); try discriminate.
  - destruct (shlex.tokens lx') as [l|e'|b]; [discriminate| |discriminate].
    intros [= <-].
    match goal with IH : forall _, _ -> _ |- _ => now apply IH end.
  - intros [= <-].
    match goal with
    | E : shlex.read_token _ = Raise _ |- _ =>
        unfold shlex.read_token in E; exact (read_loop_raises _ _ _ _ _ E)
    end.
Qed.

(** The lexer raises nothing else. *)
Lemma read_loop_no_base ins st tok quoted esc b :
  shlex.read_loop ins st tok quoted esc <> RaiseBase b.
Proof.
  revert st tok quoted esc.
  induction ins as [|c rest IH]; intros st tok quoted esc;
    cbn [shlex.read_loop].
  - destruct st; discriminate.
  - destruct st;
      repeat match goal with
             | |- context [if ?b then _ else _] => destruct b
             end;
      try discriminate; apply IH.
Qed.

Lemma tokens_no_base lx b : shlex.tokens lx <> RaiseBase b.
Proof.
  funelim (shlex.tokens lx); try discriminate.
  - destruct (shlex.tokens lx') as [l|e'|b']; try discriminate.
    intros [= <-].
    match goal with IH : forall _, _ <> _ |- _ => now apply (IH b') end.
  - intros [= <-].
    match goal with
    | E : shlex.read_token _ = RaiseBase _ |- _ =>
        unfold shlex.read_token in E; exact (read_loop_no_base _ _ _ _ _ E)
    end.
Qed.

Lemma read_blank a esc :
  all_in a shlex.whitespace = true ->
  shlex.read_loop a shlex.InSpace "" false esc
  = Ok (None, shlex.Lexer "" shlex.AtEof "").
Proof.
  induction a as [|c a IH]; intros H; [reflexivity|].
  cbn [all_in] in H. apply andb_prop in H as [Hc Ha].
  cbn [shlex.read_loop]. rewrite Hc. cbn. now apply IH.
Qed.

Lemma split_blank a :
  all_in a shlex.whitespace = true -> shlex.split a = Ok [].
Proof.
  intros H. unfold shlex.split. rewrite tokens_unfold.
  unfold shlex.read_token. cbn [shlex.instream shlex.state shlex.token]. now rewrite read_blank.
Qed.

Lemma quote_plain t : plain_token t -> shlex.quote t = t.
Proof. intros [Ht Hs]. unfold shlex.quote. now rewrite Ht, Hs. Qed.

Lemma join_plain l :
  Forall plain_token l -> shlex.join l = String.concat " " l.
Proof.
  intros H. unfold shlex.join. f_equal.
  induction H as [|t l Ht _ IH]; [reflexivity|].
  cbn [map]. now rewrite quote_plain, IH.
Qed.

End SanitizationMore.

(** X3: sanitization keeps the tokens.  Whenever the argument text can be
    split, the sanitized text splits into the same tokens. *)
Theorem sanitize_keeps_tokens s s1 :
  sanitize s = Ok s1 -> shlex.split s1 = shlex.split s.
Proof.
  unfold sanitize, bind.
  destruct (shlex.split s) as [l|e|b]; [|discriminate..].
  intros [= <-]. apply split_join.
Qed.

Lemma sanitize_keeps_tokens_witness :
  shlex.split sanitized_args = shlex.split raw_args.
Proof. apply (sanitize_keeps_tokens raw_args). reflexivity. Defined.

(** X4: the only exceptions of the sanitization are the two [ValueError]s of
    the lexer, for a quotation that is not closed and for an escape
    character at the end of the text. *)
Theorem sanitize_exceptions s e :
  sanitize s = Raise e ->
  e = Exn ValueError "No closing quotation" \/
  e = Exn ValueError "No escaped character".
Proof.
  unfold sanitize, bind, shlex.split.
  destruct (shlex.tokens _) as [l|e'|b] eqn:E; [discriminate| |discriminate].
  intros [= <-]. now apply tokens_raises in E.
Qed.

Lemma sanitize_exceptions_witness :
  Exn ValueError "No escaped character"
  = Exn ValueError "No closing quotation" \/
  Exn ValueError "No escaped character"
  = Exn ValueError "No escaped character".
Proof. apply (sanitize_exceptions "--flag \"). reflexivity. Defined.

(** X5: an argument text made of white space only, which counts as given
    since it is not empty, replaces [popeye_args] and is sanitized to the
    empty text. *)
Theorem blank_args_give_no_arguments {PyVal : Type}
        (params : PopeyeParams PyVal) a :
  args params = Some a -> truthy a = true ->
  all_in a shlex.whitespace = true ->
  chosen_args params = a /\ sanitize (chosen_args params) = Ok "".
Proof.
  intros Ha Ht Hw. unfold chosen_args. rewrite Ha, Ht. split; [reflexivity|].
  unfold sanitize. now rewrite split_blank.
Qed.

Lemma blank_args_give_no_arguments_witness :
  sanitize (chosen_args (Reference.with_args "  ")) = Ok "".
Proof.
  apply (blank_args_give_no_arguments (Reference.with_args "  ") (a := "  "));
    reflexivity.
Defined.

(** X6: a text made of tokens that need no quotes, with one space between
    them, is left as it is by the sanitization. *)
Theorem sanitize_plain_arguments l :
  Forall plain_token l ->
  sanitize (String.concat " " l) = Ok (String.concat " " l).
Proof.
  intros H. unfold sanitize. rewrite <- (join_plain H), split_join.
  reflexivity.
Qed.

Lemma sanitize_plain_arguments_witness :
  sanitize "-s po,svc --lint-level=warn" = Ok "-s po,svc --lint-level=warn".
Proof.
  apply (sanitize_plain_arguments (l := ["-s"; "po,svc"; "--lint-level=warn"])).
  repeat constructor.
Defined.

(** ** Rows *)

Section RowsMore.

Local Open Scope list_scope.

Lemma rsplit1_none s sep : rsplit1 s sep = None <-> lacks sep s.
Proof.
  unfold lacks. induction s as [|c s IH]; [now split|].
  cbn [rsplit1 in_str]. rewrite (Ascii.eqb_sym sep c).
  destruct (rsplit1 s sep) as [[h t]|] eqn:E.
  - split.
    + discriminate.
    + intros H. apply orb_false_iff in H as [_ H].
      apply IH in H. discriminate H.
  - destruct (Ascii.eqb c sep).
    + now split.
    + cbn [orb]. split; intros _.
      * now apply IH.
      * reflexivity.
Qed.

Lemma rsplit1_some s sep h t :
  rsplit1 s sep = Some (h, t) ->
  s = (h ++ String sep t)%string /\ lacks sep t.
Proof.
  revert h; induction s as [|c s IH]; intros h; [discriminate|].
  cbn [rsplit1]. destruct (rsplit1 s sep) as [[h' t']|] eqn:E.
  - intros [= <- <-]. destruct (IH h' eq_refl) as [-> Ht]. now split.
  - destruct (Ascii.eqb c sep) eqn:Ec; [|discriminate].
    intros [= <- <-]. apply Ascii.eqb_eq in Ec. subst c.
    split; [reflexivity|]. now apply rsplit1_none.
Qed.

(** The rows of a report, with the section, the resource and the group each
    comes from. *)
Lemma scan_rows_In scan_id scan_report row :
  In row (scan_rows scan_id scan_report) <->
  exists section resource issuesList g,
    In section
       (match sanitizers scan_report with Some l => l | None => [] end) /\
    In (resource, issuesList)
       (match issues section with Some d => d | None => [] end) /\
    In g (map group issuesList) /\
    row = row_of_group scan_id (sanitizer section) resource issuesList g.
Proof.
  unfold scan_rows, section_rows. rewrite in_flat_map. split.
  - intros (section & Hs & Hr).
    apply in_flat_map in Hr as ([resource l] & He & Hr).
    rewrite resource_rows_groups in Hr.
    apply in_map_iff in Hr as (g & <- & Hg).
    apply (proj1 (distinct_In _ _)) in Hg. exists section, resource, l, g.
    repeat split; auto.
  - intros (section & resource & l & g & Hs & He & Hg & ->).
    exists section. split; [exact Hs|]. apply in_flat_map.
    exists (resource, l). split; [exact He|].
    rewrite resource_rows_groups. apply in_map.
    now apply (proj2 (distinct_In _ _)).
Qed.

Lemma issues_of_nonempty g issuesList :
  In g (map group issuesList) -> issues_of g issuesList <> [].
Proof.
  intros H. apply in_map_iff in H as (i & <- & Hi).
  assert (Hin : In i (issues_of (group i) issuesList)).
  { apply filter_In. split; [exact Hi|apply String.eqb_refl]. }
  intros E. now rewrite E in Hin.
Qed.

Lemma content_levels g issuesList :
  map lm_level (map level_message (issues_of g issuesList))
  = levels_of g issuesList.
Proof. unfold levels_of. rewrite map_map. reflexivity. Qed.

Lemma resource_rows_nil scan_id kind entry :
  resource_rows scan_id kind entry = [] <-> snd entry = [].
Proof.
  destruct entry as [resource l]. rewrite resource_rows_groups. cbn [snd].
  destruct l as [|i l]; [now split|].
  split; intros H; discriminate H.
Qed.

Lemma flat_map_nil {A B} (f : A -> list B) l :
  flat_map f l = [] <-> Forall (fun a => f a = []) l.
Proof.
  induction l as [|a l IH]; cbn [flat_map].
  - split; auto.
  - split.
    + intros H. apply app_eq_nil in H as [Ha Hl]. constructor; [exact Ha|].
      now apply IH.
    + intros H. inversion H as [|? ? Ha Hl]; subst.
      rewrite Ha. now apply IH.
Qed.

Lemma Forall_equiv {A} (P Q : A -> Prop) l :
  (forall a, P a <-> Q a) -> Forall P l <-> Forall Q l.
Proof.
  intros H. rewrite !Forall_forall.
  split; intros Hl a Ha; apply H, Hl, Ha.
Qed.

Lemma resource_rows_entries scan_id kind entry :
  list_sum (map (fun row => length (content row))
                (resource_rows scan_id kind entry))
  = length (snd entry).
Proof.
  destruct entry as [resource l]. unfold resource_rows.
  destruct (rpartition resource "/") as [[ns sep] nm].
  rewrite map_map. cbn [snd].
  transitivity (entries (group_issues_list l)).
  - unfold entries. f_equal. apply map_ext. now intros [g gi].
  - apply (entries_fold l []).
Qed.

Lemma list_sum_flat_map {A B} (f : A -> list B) (m : B -> nat) l :
  list_sum (map m (flat_map f l))
  = list_sum (map (fun a => list_sum (map m (f a))) l).
Proof.
  induction l as [|a l IH]; [reflexivity|].
  cbn [flat_map map list_sum]. now rewrite map_app, list_sum_app, IH.
Qed.

End RowsMore.

(** X7: every row of a report carries the identifier of the scan and the
    kind of its section, lists at least one issue, and has as priority the
    largest of 0 and the levels it lists. *)
Theorem row_invariants scan_id scan_report row :
  In row (scan_rows scan_id scan_report) ->
  row_scan_id row = scan_id /\
  scan_type row = POPEYE /\
  (exists section,
      In section
         (match sanitizers scan_report with Some l => l | None => [] end) /\
      kind row = sanitizer section) /\
  content row <> [] /\
  priority row = max_level (map lm_level (content row)).
Proof.
  intros H. apply scan_rows_In in H
    as (section & resource & l & g & Hs & _ & Hg & ->).
  cbn [row_scan_id scan_type kind content priority row_of_group].
  repeat split; eauto.
  - intros E. apply map_eq_nil in E. revert E. now apply issues_of_nonempty.
  - now rewrite content_levels.
Qed.

Lemma row_invariants_witness :
  priority (minimal_row "scan")
  = max_level (map lm_level (content (minimal_row "scan"))).
Proof.
  apply (row_invariants "scan" minimal_report (minimal_row "scan")).
  left. reflexivity.
Defined.

(** X8: the rows of a report list every issue once: the numbers of issues
    the rows list add up to the number of issues of the report. *)
Theorem rows_list_every_issue scan_id scan_report :
  list_sum (map (fun row => length (content row))
                (scan_rows scan_id scan_report))
  = list_sum (map (@length Issue) (report_issue_lists scan_report)).
Proof.
  unfold scan_rows, report_issue_lists, section_rows.
  rewrite !list_sum_flat_map. f_equal. apply map_ext. intros section.
  rewrite list_sum_flat_map, map_map. f_equal. apply map_ext. intros entry.
  apply resource_rows_entries.
Qed.

(** X9: a report has no rows exactly when none of its resources has an
    issue; a section without issues, a report without sections and a
    resource with an empty list of issues give no row. *)
Theorem no_rows_without_issues scan_id scan_report :
  scan_rows scan_id scan_report = [] <->
  Forall (fun issuesList => issuesList = []) (report_issue_lists scan_report).
Proof.
  unfold scan_rows, report_issue_lists, section_rows.
  rewrite flat_map_nil, Forall_flat_map.
  apply Forall_equiv. intros section.
  rewrite flat_map_nil, Forall_map. apply Forall_equiv. intros entry.
  apply resource_rows_nil.
Qed.

(** X10: the key of a resource is split at its last slash.  The rows of a
    resource whose key has no slash have an empty namespace and the key as
    name; otherwise the key is the namespace, a slash and the name, and the
    name has no slash. *)
Theorem rows_split_resource_key scan_id kind resource issuesList row :
  In row (resource_rows scan_id kind (resource, issuesList)) ->
  (lacks "/" resource -> namespace row = "" /\ name row = resource) /\
  (~ lacks "/" resource ->
   resource = namespace row ++ "/" ++ name row /\ lacks "/" (name row)).
Proof.
  rewrite resource_rows_groups. intros H.
  apply in_map_iff in H as (g & <- & _).
  cbn [namespace name row_of_group]. unfold rpartition.
  destruct (rsplit1 resource "/") as [[h t]|] eqn:E; cbn [fst snd].
  - apply rsplit1_some in E as [-> Ht]. split; [|auto].
    intros Hl. exfalso. revert Hl. unfold lacks.
    clear. induction h as [|c h IH]; cbn [append in_str].
    + now rewrite Ascii.eqb_refl.
    + destruct (Ascii.eqb "/" c); [discriminate|exact IH].
  - apply rsplit1_none in E. split; [auto|]. intros N. now destruct N.
Qed.

Lemma rows_split_resource_key_witness :
  let row := row_of_group "scan" "pod" "apps/v1/web" example_issues "nginx" in
  "apps/v1/web" = namespace row ++ "/" ++ name row /\ lacks "/" (name row).
Proof.
  apply (rows_split_resource_key "scan" "pod" "apps/v1/web" example_issues).
  - right. left. reflexivity.
  - discriminate.
Defined.

(** ** Grouping and the order of the issues *)

Section GroupingOrder.

Local Open Scope list_scope.

Lemma issues_of_cons g i l :
  issues_of g (i :: l) =
  if (group i =? g)%string then i :: issues_of g l else issues_of g l.
Proof. reflexivity. Qed.

Lemma issues_of_perm g l l' :
  Permutation l l' -> Permutation (issues_of g l) (issues_of g l').
Proof.
  induction 1 as [|x l l' _ IH|x y l|l l1 l2 _ IH1 _ IH2].
  - constructor.
  - rewrite !issues_of_cons. destruct (group x =? g)%string; auto.
  - rewrite !issues_of_cons.
    destruct (group x =? g)%string, (group y =? g)%string;
      auto using perm_swap.
  - now transitivity (issues_of g l1).
Qed.

Lemma max_level_perm l l' : Permutation l l' -> max_level l = max_level l'.
Proof.
  induction 1 as [|x l l' _ IH|x y l|l l1 l2 _ IH1 _ IH2].
  - reflexivity.
  - cbn [max_level fold_right]. fold (max_level l) (max_level l'). lia.
  - cbn [max_level fold_right]. lia.
  - congruence.
Qed.

Lemma group_issues_list_In g gi issues :
  In (g, gi) (group_issues_list issues) ->
  In g (map group issues) /\ gi = summary issues g.
Proof.
  rewrite group_issues_list_summary. intros H.
  apply in_map_iff in H as (g' & [= -> <-] & Hg).
  split; [now apply (proj1 (distinct_In _ _))|reflexivity].
Qed.

Lemma distinct_perm_length l l' :
  Permutation l l' -> length (distinct l) = length (distinct l').
Proof.
  intros H. apply Nat.le_antisymm; apply NoDup_incl_length;
    auto using distinct_NoDup; intros x Hx;
    apply (proj2 (distinct_In _ _)); apply (proj1 (distinct_In _ _)) in Hx.
  - now apply (Permutation_in _ H).
  - now apply (Permutation_in _ (Permutation_sym H)).
Qed.

End GroupingOrder.

(** X11: what [group_issues_list] holds for a group does not depend on the
    order of the issues, but for the order of the list of the group: two
    lists with the same issues give the same number of groups, and give
    every group the same level and the same levels and messages. *)
Theorem grouping_ignores_order issues issues' :
  Permutation issues issues' ->
  length (group_issues_list issues) = length (group_issues_list issues') /\
  forall g gi gi',
    In (g, gi) (group_issues_list issues) ->
    In (g, gi') (group_issues_list issues') ->
    grouped_level gi = grouped_level gi' /\
    Permutation (grouped gi) (grouped gi').
Proof.
  intros H. split.
  - rewrite !group_issues_list_summary, !length_map.
    apply distinct_perm_length. now apply Permutation_map.
  - intros g gi gi' Hi Hi'.
    apply group_issues_list_In in Hi as [_ ->].
    apply group_issues_list_In in Hi' as [_ ->].
    rewrite !summary_level. split.
    + apply max_level_perm. unfold levels_of.
      now apply Permutation_map, issues_of_perm.
    + cbn [grouped summary]. now apply Permutation_map, issues_of_perm.
Qed.

Lemma grouping_ignores_order_witness :
  grouped_level (summary example_issues "nginx")
  = grouped_level (summary (rev example_issues) "nginx").
Proof.
  apply (proj2 (grouping_ignores_order (Permutation_rev example_issues))
               "nginx").
  - right. left. reflexivity.
  - left. reflexivity.
Defined.

(** ** Issues and their group *)

Section IssueLookup.

Local Open Scope list_scope.

Lemma NoDup_map_on {A B} (f : A -> B) l :
  (forall x y, In x l -> In y l -> f x = f y -> x = y) ->
  NoDup l -> NoDup (map f l).
Proof.
  intros Hinj H. induction H as [|a l Ha Hl IH]; cbn [map]; constructor.
  - intros Hin. apply in_map_iff in Hin as (b & E & Hb).
    apply Hinj in E; [|now right|now left]. now subst.
  - apply IH. intros x y Hx Hy. apply Hinj; now right.
Qed.

Lemma container_of_group g g' :
  g <> "" -> g' <> "" ->
  (if (g =? "__root__")%string then "" else g)
  = (if (g' =? "__root__")%string then "" else g') ->
  g = g'.
Proof.
  intros Hg Hg'.
  destruct (String.eqb_spec g "__root__") as [->|N],
           (String.eqb_spec g' "__root__") as [->|N']; congruence.
Qed.

End IssueLookup.

(** X12: every issue is found under its group.  The dictionary of
    [group_issues_list] has the group of every issue of the list as a key,
    the value under it lists the level and message of the issue, and its
    level is at least the level of the issue. *)
Theorem issue_is_grouped issues issue :
  In issue issues ->
  exists gIssues,
    In (group issue, gIssues) (group_issues_list issues) /\
    In (level_message issue) (grouped gIssues) /\
    (level issue <= grouped_level gIssues)%Z.
Proof.
  intros H. exists (summary issues (group issue)).
  assert (Hin : In issue (issues_of (group issue) issues)).
  { apply filter_In. split; [exact H|apply String.eqb_refl]. }
  split; [|split].
  - rewrite group_issues_list_summary.
    apply (in_map (fun g => (g, summary issues g))).
    apply (proj2 (distinct_In _ _)). now apply in_map.
  - cbn [grouped summary]. now apply in_map.
  - rewrite summary_level.
    pose proof (max_level_upper (levels_of (group issue) issues)) as U.
    rewrite Forall_forall in U. apply U. unfold levels_of. now apply in_map.
Qed.

Lemma issue_is_grouped_witness :
  exists gIssues,
    In ("nginx", gIssues) (group_issues_list example_issues) /\
    In (level_message (issue_of "nginx" 2 "no liveness probe"))
       (grouped gIssues) /\
    (2 <= grouped_level gIssues)%Z.
Proof.
  apply (issue_is_grouped example_issues
           (issue_of "nginx" 2 "no liveness probe")).
  do 4 right. left. reflexivity.
Defined.

(** X13: the rows of a resource are told apart by their container, as long
    as no issue has the empty text as group: the empty text is the
    container of the root group, so a group of that name would share it. *)
Theorem rows_have_distinct_containers scan_id kind resource issuesList :
  Forall (fun issue => group issue <> "") issuesList ->
  NoDup (map container (resource_rows scan_id kind (resource, issuesList))).
Proof.
  intros H. rewrite resource_rows_groups, map_map.
  cbn [container row_of_group].
  apply NoDup_map_on; [|apply distinct_NoDup].
  assert (Hne : forall g, In g (distinct (map group issuesList)) -> g <> "").
  { intros g Hg. apply (proj1 (distinct_In _ _)) in Hg.
    apply in_map_iff in Hg as (i & <- & Hi).
    rewrite Forall_forall in H. now apply H. }
  intros g g' Hg Hg'. apply container_of_group; auto.
Qed.

Lemma rows_have_distinct_containers_witness :
  NoDup (map container
             (resource_rows "scan" "pod" ("default/my-pod", example_issues))).
Proof.
  apply (rows_have_distinct_containers "scan" "pod" "default/my-pod").
  repeat constructor; discriminate.
Defined.

(** ** The action: arguments, log and job *)

Section ActionMore.

Variables PyVal JSON : Type.
Variable C : Collaborators PyVal JSON.
Variable params : PopeyeParams PyVal.

Local Open Scope list_scope.

Lemma warned_logged w :
  logged (warned params w) =
  logged w ++ (if args_given params then [deprecation_warning] else []).
Proof.
  unfold warned, args_given.
  destruct (args params) as [a|]; [destruct (truthy a)|];
    cbn [logged]; now rewrite ?app_nil_r.
Qed.

(** The records the [except] clause logs. *)
Lemma on_exception_logged logs e u w :
  (forall s w0, logged (snd (u s w0)) = logged w0) ->
  exists text,
    logged (snd (on_exception params logs e u w)) =
    logged w ++ [(LogException, text);
                 (LogError, ("Logs: " ++ str_opt logs)%string)] /\
    (exn_cls e = JSONDecodeError ->
     text = ("*Popeye scan job failed. Expecting json result.*" ++ LF ++ LF
               ++ " Result:" ++ LF ++ str_opt logs)%string) /\
    (exn_cls e = ValidationError ->
     text = ("*Popeye scan job failed. Result format issue.*" ++ LF ++ LF
               ++ " " ++ exn_str e)%string) /\
    (exn_cls e <> JSONDecodeError -> exn_cls e <> ValidationError ->
     text =
       if (exn_str e =? "Failed to reach wait condition")%string then
         ("*Popeye scan job failed. The job wait condition timed out ("
            ++ str_int (timeout params) ++ "s)*")%string
       else
         ("*Popeye scan job unexpected error.*" ++ LF ++ " " ++ exn_str e)%string).
Proof.
  intros Hu. unfold on_exception, seq, logging.
  destruct (exn_cls e) eqn:Ecls;
    try destruct (exn_str e =? "Failed to reach wait condition")%string eqn:Es;
    eexists; (split;
              [ match goal with
                | |- context [u FAILED ?w0] =>
                    specialize (Hu FAILED w0); destruct (u FAILED w0) as [[] ?];
                    cbn [snd] in *; rewrite Hu; cbn [logged];
                    rewrite <- app_assoc; reflexivity
                end
              | repeat split; intros; congruence || reflexivity ]).
Qed.

Lemma update_state_logged s (w0 : world PyVal) :
  logged (snd (update_state (uuid4 C) (metadata_of C) (now C 0) s w0))
  = logged w0.
Proof. reflexivity. Qed.

(** What a run logs after the deprecation warning. *)
Lemma run_with_logged spec w :
  match scan_job C (job_request C params spec) with
  | (_, Ok _) | (_, RaiseBase _) =>
      logged (snd (run_with C params spec w)) = logged w
  | (logs, Raise e) =>
      exists text,
        logged (snd (run_with C params spec w)) =
        logged w ++ [(LogException, text);
                     (LogError, ("Logs: " ++ str_opt logs)%string)] /\
        (exn_cls e = JSONDecodeError ->
         text = ("*Popeye scan job failed. Expecting json result.*"
                   ++ LF ++ LF ++ " Result:" ++ LF ++ str_opt logs)%string) /\
        (exn_cls e <> JSONDecodeError -> exn_cls e <> ValidationError ->
         text =
           if (exn_str e =? "Failed to reach wait condition")%string then
             ("*Popeye scan job failed. The job wait condition timed out ("
                ++ str_int (timeout params) ++ "s)*")%string
           else
             ("*Popeye scan job unexpected error.*" ++ LF ++ " "
                ++ exn_str e)%string)
  end.
Proof.
  unfold run_with.
  destruct (scan_job C (job_request C params spec)) as [logs [report|e|b]].
  - reflexivity.
  - match goal with
    | |- context [on_exception params logs e ?u ?w1] =>
        destruct (on_exception_logged logs e u w1 update_state_logged)
          as (text & Hl & Hjson & _ & Hother)
    end.
    exists text. cbn [logged] in Hl. auto.
  - reflexivity.
Qed.

End ActionMore.

Section ActionIdentity.

Variables PyVal JSON : Type.
Variable C : Collaborators PyVal JSON.
Variable params : PopeyeParams PyVal.

Local Open Scope list_scope.

Lemma state_event_identity s : carries_identity C (state_event C s).
Proof. repeat split; repeat constructor. Qed.

Lemma scan_rows_ids scan_id scan_report :
  Forall (eq scan_id) (map row_scan_id (scan_rows scan_id scan_report)).
Proof.
  apply Forall_map, Forall_forall. intros row H.
  apply scan_rows_In in H as (? & ? & ? & ? & _ & _ & _ & ->). reflexivity.
Qed.

Lemma finding_event_identity scan_report :
  carries_identity C (finding_event C params scan_report).
Proof.
  repeat split; cbn; repeat constructor.
  rewrite app_nil_r. apply scan_rows_ids.
Qed.

End ActionIdentity.

(** X14: when the parameter [args] is given, [popeye_args] plays no part:
    the action does the same whatever [popeye_args] is, and the first thing
    it logs is the deprecation warning. *)
Theorem given_args_replace_popeye_args {PyVal JSON : Type}
        (C : Collaborators PyVal JSON) (params : PopeyeParams PyVal)
        (w : world PyVal) (a other : string) :
  args params = Some a -> truthy a = true ->
  popeye_scan C (set_popeye_args params other) w = popeye_scan C params w /\
  exists l,
    logged (snd (popeye_scan C params w))
    = (logged w ++ deprecation_warning :: l)%list.
Proof.
  intros Ha Ht. split.
  - unfold popeye_scan, pod_spec, on_exception, report_finding.
    cbn [args popeye_args set_popeye_args service_account_name timeout
         popeye_job_spec spinach custom_annotations].
    rewrite Ha, Ht. reflexivity.
  - rewrite popeye_scan_run.
    assert (Hw : logged (warned params w)
                 = (logged w ++ [deprecation_warning])%list).
    { rewrite warned_logged. unfold args_given. now rewrite Ha, Ht. }
    destruct (build_pod_spec C params) as [spec|e|b]; cbn [snd].
    + pose proof (run_with_logged C params spec (warned params w)) as H.
      destruct (scan_job C (job_request C params spec))
        as [logs [report|e|b]].
      * exists []. now rewrite H, Hw.
      * destruct H as (text & -> & _). rewrite Hw, <- app_assoc.
        eexists. reflexivity.
      * exists []. now rewrite H, Hw.
    + exists []. exact Hw.
    + exists []. exact Hw.
Qed.

Lemma given_args_replace_popeye_args_witness :
  popeye_scan (Reference.collaborators (Ok Reference.minimal_text))
              (set_popeye_args (Reference.with_args "-s po") "-s svc")
              Reference.empty_world
  = popeye_scan (Reference.collaborators (Ok Reference.minimal_text))
                (Reference.with_args "-s po") Reference.empty_world.
Proof.
  apply (given_args_replace_popeye_args
           (Reference.collaborators (Ok Reference.minimal_text))
           (Reference.with_args "-s po") Reference.empty_world
           (a := "-s po") "-s svc"); reflexivity.
Defined.

(** X15: what a run logs.  The deprecation warning comes first, exactly when
    [args] is given.  After it a run that succeeds, or whose job
    specification cannot be built, logs nothing; a scan that fails with an
    exception derived from [Exception] logs two records, the exception and
    then the error record that shows the last value of [logs]: None when
    the job runner raised, the cleaned output otherwise; and a scan stopped
    by an exception that is not derived from [Exception], which the clause
    does not catch, logs nothing. *)
Theorem popeye_scan_log {PyVal JSON : Type}
        (C : Collaborators PyVal JSON) (params : PopeyeParams PyVal)
        (w : world PyVal) :
  exists l,
    logged (snd (popeye_scan C params w)) =
      (logged w ++ (if args_given params then [deprecation_warning] else [])
         ++ l)%list /\
    match build_pod_spec C params with
    | Raise _ | RaiseBase _ => l = []
    | Ok spec =>
        match scan_job C (job_request C params spec) with
        | (_, Ok _) | (_, RaiseBase _) => l = []
        | (logs, Raise _) =>
            (exists text,
                l = [(LogException, text);
                     (LogError, "Logs: " ++ str_opt logs)]) /\
            logs =
              match run_simple_job_spec C (job_request C params spec) with
              | Ok raw => Some (clean_up_k8s_logs_from_job_output raw)
              | Raise _ | RaiseBase _ => None
              end
        end
    end.
Proof.
  rewrite popeye_scan_run.
  destruct (build_pod_spec C params) as [spec|e|b]; cbn [snd].
  - pose proof (run_with_logged C params spec (warned params w)) as H.
    assert (Hlogs :
              fst (scan_job C (job_request C params spec)) =
              match run_simple_job_spec C (job_request C params spec) with
              | Ok raw => Some (clean_up_k8s_logs_from_job_output raw)
              | Raise _ | RaiseBase _ => None
              end).
    { unfold scan_job.
      now destruct (run_simple_job_spec C (job_request C params spec)). }
    destruct (scan_job C (job_request C params spec)) as [logs [report|e|b]];
      cbn [fst] in Hlogs.
    + exists []. now rewrite H, warned_logged, app_nil_r.
    + destruct H as (text & -> & _). eexists. rewrite warned_logged.
      rewrite <- app_assoc. split; [reflexivity|].
      split; [now exists text|exact Hlogs].
    + exists []. now rewrite H, warned_logged, app_nil_r.
  - exists []. now rewrite warned_logged, app_nil_r.
  - exists []. now rewrite warned_logged, app_nil_r.
Qed.

(** X16: a time-out of the job is reported as such.  When the job runner
    raises an exception whose text is that of the wait condition, and which
    is no decoding or validation error, the action logs the time-out with
    the number of seconds of the parameters, then that there are no logs,
    and emits the state FAILED after the state PENDING. *)
Theorem timeout_is_reported {PyVal JSON : Type}
        (C : Collaborators PyVal JSON) (params : PopeyeParams PyVal)
        (w : world PyVal) spec e :
  build_pod_spec C params = Ok spec ->
  run_simple_job_spec C (job_request C params spec) = Raise e ->
  exn_str e = "Failed to reach wait condition" ->
  exn_cls e <> JSONDecodeError -> exn_cls e <> ValidationError ->
  logged (snd (popeye_scan C params w)) =
    (logged w ++ (if args_given params then [deprecation_warning] else [])
       ++ [(LogException,
            ("*Popeye scan job failed. The job wait condition timed out ("
               ++ str_int (timeout params) ++ "s)*")%string);
           (LogError, "Logs: None")])%list /\
  emitted (snd (popeye_scan C params w)) =
    (emitted w ++ [state_event C PENDING; state_event C FAILED])%list.
Proof.
  intros Hb Hr Hs Hj Hv. split.
  - rewrite popeye_scan_run, Hb.
    pose proof (run_with_logged C params spec (warned params w)) as H.
    unfold scan_job in H. rewrite Hr in H.
    destruct H as (text & -> & _ & Ht). rewrite (Ht Hj Hv), Hs.
    rewrite warned_logged, <- app_assoc. reflexivity.
  - pose proof (popeye_scan_effects C params w) as H.
    destruct (popeye_scan C params w) as [r w']. rewrite Hb in H.
    cbn [snd]. destruct H as (_ & H). unfold scan_job in H.
    rewrite Hr in H. cbn [snd] in H. now destruct H as (_ & ->).
Qed.

Lemma timeout_is_reported_witness :
  logged
    (snd (popeye_scan
            (Reference.collaborators
               (Raise (Exn OtherError "Failed to reach wait condition")))
            Reference.default_params Reference.empty_world))
  = [(LogException,
      "*Popeye scan job failed. The job wait condition timed out (300s)*");
     (LogError, "Logs: None")].
Proof.
  refine (proj1 (timeout_is_reported
                   (Reference.collaborators
                      (Raise (Exn OtherError "Failed to reach wait condition")))
                   Reference.default_params Reference.empty_world
                   (spec := _) (e := Exn OtherError _) _ _ _ _ _)).
  - vm_compute. reflexivity.
  - reflexivity.
  - reflexivity.
  - discriminate.
  - discriminate.
Defined.

(** X17: when the output of the job cannot be decoded, what the action logs
    is the cleaned output: the lines the cleanup removed appear neither in
    the exception record nor in the error record. *)
Theorem undecodable_output_is_logged_cleaned {PyVal JSON : Type}
        (C : Collaborators PyVal JSON) (params : PopeyeParams PyVal)
        (w : world PyVal) spec raw e :
  build_pod_spec C params = Ok spec ->
  run_simple_job_spec C (job_request C params spec) = Ok raw ->
  json_loads C (clean_up_k8s_logs_from_job_output raw) = Raise e ->
  exn_cls e = JSONDecodeError ->
  logged (snd (popeye_scan C params w)) =
    (logged w ++ (if args_given params then [deprecation_warning] else [])
       ++ [(LogException,
            ("*Popeye scan job failed. Expecting json result.*" ++ LF ++ LF
               ++ " Result:" ++ LF
               ++ clean_up_k8s_logs_from_job_output raw)%string);
           (LogError,
            ("Logs: " ++ clean_up_k8s_logs_from_job_output raw)%string)])%list.
Proof.
  intros Hb Hr Hl Hj. rewrite popeye_scan_run, Hb.
  pose proof (run_with_logged C params spec (warned params w)) as H.
  unfold scan_job in H. rewrite Hr, Hl in H. cbn [bind] in H.
  destruct H as (text & -> & Ht & _). rewrite (Ht Hj).
  rewrite warned_logged, <- app_assoc. reflexivity.
Qed.

Lemma undecodable_output_is_logged_cleaned_witness :
  let raw := "2024-01-01 info starting" ++ LF ++ "{not json" in
  clean_up_k8s_logs_from_job_output raw = "{not json" /\
  logged
    (snd (popeye_scan (Reference.collaborators (Ok raw))
            Reference.default_params Reference.empty_world))
  = [(LogException,
      "*Popeye scan job failed. Expecting json result.*" ++ LF ++ LF
        ++ " Result:" ++ LF ++ clean_up_k8s_logs_from_job_output raw);
     (LogError, "Logs: " ++ clean_up_k8s_logs_from_job_output raw)].
Proof.
  split; [reflexivity|].
  refine (undecodable_output_is_logged_cleaned
            (Reference.collaborators
               (Ok ("2024-01-01 info starting" ++ LF ++ "{not json")))
            Reference.default_params Reference.empty_world
            (spec := _)
            (raw := "2024-01-01 info starting" ++ LF ++ "{not json")
            (e := Exn JSONDecodeError "Expecting value") _ _ _ _).
  - vm_compute. reflexivity.
  - reflexivity.
  - vm_compute. reflexivity.
  - reflexivity.
Defined.

(** X18: one invocation speaks of one scan and one job.  Every event it
    emits, the report block of the finding and every row of the block carry
    the identifier drawn at the start; the job name of their metadata is
    the name under which the job is handed to the runner, popeye-job-
    followed by the identifier; and the block has the start time of the
    events. *)
Theorem scan_identity_is_consistent {PyVal JSON : Type}
        (C : Collaborators PyVal JSON) (params : PopeyeParams PyVal)
        (w : world PyVal) :
  exists emissions requests,
    emitted (snd (popeye_scan C params w)) = (emitted w ++ emissions)%list /\
    submitted (snd (popeye_scan C params w)) = (submitted w ++ requests)%list /\
    Forall (carries_identity C) emissions /\
    Forall (fun request =>
              job_request_name request = "popeye-job-" ++ uuid4 C) requests.
Proof.
  pose proof (popeye_scan_effects C params w) as H.
  destruct (popeye_scan C params w) as [r w']. cbn [snd].
  destruct (build_pod_spec C params) as [spec|e|b].
  - destruct H as (-> & H).
    destruct (snd (scan_job C (job_request C params spec)));
      destruct H as (_ & ->); do 2 eexists;
      (split; [reflexivity|]); (split; [reflexivity|]);
      (split; [|repeat constructor]);
      repeat (constructor;
              try apply state_event_identity;
              try apply finding_event_identity).
  - destruct H as (_ & -> & ->). exists [], [].
    rewrite !app_nil_r. repeat split; constructor.
  - destruct H as (_ & -> & ->). exists [], [].
    rewrite !app_nil_r. repeat split; constructor.
Qed.

(** X19: the overrides of the job specification cannot replace what the
    action sets.  An override named like one of the four keywords the
    action gives makes the action raise a [TypeError] before it emits or
    submits anything; and a job specification that is built has the service
    account of the parameters, one container, which runs the image under
    /bin/sh, and the overrides as they were given. *)
Theorem overrides_leave_fixed_fields {PyVal JSON : Type}
        (C : Collaborators PyVal JSON) (params : PopeyeParams PyVal)
        (w : world PyVal) :
  (forall k v tokens,
      In (k, v) (popeye_job_spec params) ->
      mem k named_keywords = true ->
      shlex.split (chosen_args params) = Ok tokens ->
      exists text,
        fst (popeye_scan C params w) = Raise (Exn TypeError text) /\
        emitted (snd (popeye_scan C params w)) = emitted w /\
        submitted (snd (popeye_scan C params w)) = submitted w) /\
  (forall spec,
      build_pod_spec C params = Ok spec ->
      serviceAccountName spec = service_account_name params /\
      other_fields spec = popeye_job_spec params /\
      exists sanitize_args command,
        sanitize (chosen_args params) = Ok sanitize_args /\
        containers spec =
          [{| container_name := to_kubernetes_name C (IMAGE C);
              image := IMAGE C;
              command := ["/bin/sh"; "-c"; command];
              resources :=
                {| limits := [("memory", POPEYE_MEMORY_LIMIT C)] |} |}]).
Proof.
  split.
  - intros k v tokens Hin Hk Hs.
    pose proof (popeye_scan_effects C params w) as H.
    destruct (popeye_scan C params w) as [r w']. cbn [fst snd].
    assert (E : exists text, build_pod_spec C params
                             = Raise (Exn TypeError text)).
    { unfold build_pod_spec, sanitize, bind. rewrite Hs.
      unfold pod_spec, PodSpec_init.
      replace (existsb _ (popeye_job_spec params)) with true; [eauto|].
      symmetry. apply existsb_exists. exists (k, v). auto. }
    destruct E as [text E]. rewrite E in H. destruct H as (-> & -> & ->).
    eauto.
  - intros spec. unfold build_pod_spec, bind.
    destruct (sanitize (chosen_args params)) as [sanitize_args|e|b];
      [|discriminate..].
    unfold pod_spec, PodSpec_init.
    destruct (existsb _ _); [discriminate|].
    destruct (negb _); [discriminate|].
    intros [= <-]. cbn [serviceAccountName other_fields containers].
    repeat split. do 2 eexists. split; reflexivity.
Qed.

Lemma overrides_leave_fixed_fields_witness :
  exists text,
    fst (popeye_scan (Reference.collaborators (Ok Reference.minimal_text))
           (Reference.with_job_spec [("restartPolicy", "Always")])
           Reference.empty_world)
    = Raise (Exn TypeError text).
Proof.
  destruct (proj1 (overrides_leave_fixed_fields
                     (Reference.collaborators (Ok Reference.minimal_text))
                     (Reference.with_job_spec [("restartPolicy", "Always")])
                     Reference.empty_world)
                  "restartPolicy" "Always"
                  ["-s";
                   "no,ns,po,svc,sa,cm,dp,sts,ds,pv,pvc,hpa,pdb,cr,crb,ro,rb,ing,np,psp"]
                  (or_introl eq_refl) eq_refl eq_refl)
    as (text & E & _).
  exists text. exact E.
Defined.

(** ** The command line of the container *)

Section CommandLine.

Local Abbreviation start s := (shlex.Lexer s shlex.InSpace "").

Lemma read_plain_run s rest tok quoted esc :
  all_plain s = true ->
  shlex.read_loop (s ++ rest) shlex.InWord tok quoted esc =
  shlex.read_loop rest shlex.InWord (tok ++ s) quoted esc.
Proof.
  revert tok; induction s as [|c s IH]; intros tok H.
  - now rewrite append_empty.
  - cbn [all_plain] in H. apply andb_prop in H as [Hc Hs].
    apply negb_true_iff, orb_false_iff in Hc as [Hc E].
    apply orb_false_iff in Hc as [W Q].
    cbn [append shlex.read_loop]. rewrite W, Q, E, IH by exact Hs.
    now rewrite push_append.
Qed.

(** A word of plain characters, read from the start of a token. *)
Lemma read_plain_word w tail :
  truthy w = true -> all_plain w = true ->
  shlex.read_loop (w ++ tail) shlex.InSpace "" false shlex.InSpace =
  shlex.read_loop tail shlex.InWord w false shlex.InSpace.
Proof.
  destruct w as [|c w]; [discriminate|]. intros _ H.
  cbn [all_plain] in H. apply andb_prop in H as [Hc Hw].
  apply negb_true_iff, orb_false_iff in Hc as [Hc E].
  apply orb_false_iff in Hc as [W Q].
  cbn [append shlex.read_loop]. rewrite W, E, Q.
  replace (if in_str c shlex.wordchars
           then shlex.read_loop (w ++ tail) shlex.InWord (String c "") false
                                shlex.InSpace
           else shlex.read_loop (w ++ tail) shlex.InWord (String c "") false
                                shlex.InSpace)
    with (shlex.read_loop (w ++ tail) shlex.InWord (String c "") false
                          shlex.InSpace)
    by now destruct (in_str c shlex.wordchars).
  now rewrite read_plain_run.
Qed.

Lemma tokens_after t lx lx' :
  shlex.read_token lx = Ok (Some t, lx') ->
  forall r, shlex.tokens lx' = Ok r -> shlex.tokens lx = Ok (t :: r).
Proof. intros H r Hr. now rewrite tokens_unfold, H, Hr. Qed.

Lemma tokens_word w rest r :
  truthy w = true -> all_plain w = true ->
  shlex.tokens (start rest) = Ok r ->
  shlex.tokens (start (w ++ " " ++ rest)) = Ok (w :: r).
Proof.
  intros Ht Hp. apply tokens_after. unfold shlex.read_token.
  cbn [shlex.instream shlex.state shlex.token].
  rewrite read_plain_word by assumption.
  destruct w; [discriminate|reflexivity].
Qed.

Lemma tokens_last_word w :
  truthy w = true -> all_plain w = true ->
  shlex.tokens (start w) = Ok [w].
Proof.
  intros Ht Hp. apply tokens_after with (lx' := shlex.Lexer "" shlex.AtEof "").
  - unfold shlex.read_token. cbn [shlex.instream shlex.state shlex.token].
    rewrite <- (append_empty w) at 1. rewrite read_plain_word by assumption.
    destruct w; [discriminate|reflexivity].
  - now rewrite tokens_unfold.
Qed.

Lemma replace1_lacks s new : lacks SQ s -> replace1 s SQ new = s.
Proof.
  unfold lacks. induction s as [|c s IH]; intros H; [reflexivity|].
  cbn [in_str] in H. apply orb_false_iff in H as [Hc Hs].
  cbn [replace1]. rewrite Ascii.eqb_sym, Hc, IH by exact Hs. reflexivity.
Qed.

(** A text between single quotes is one token, white space and all. *)
Lemma tokens_single_quoted s rest r :
  lacks SQ s ->
  shlex.tokens (start rest) = Ok r ->
  shlex.tokens (start (String SQ (s ++ String SQ (" " ++ rest))))
  = Ok (s :: r).
Proof.
  intros Hs. apply tokens_after. unfold shlex.read_token.
  cbn [shlex.instream shlex.state shlex.token].
  change (shlex.read_loop (String SQ (s ++ String SQ (" " ++ rest)))
                          shlex.InSpace "" false shlex.InSpace)
    with (shlex.read_loop (s ++ String SQ (" " ++ rest))
                          (shlex.InQuote SQ) "" false shlex.InSpace).
  rewrite read_in_quote, <- (replace1_lacks shlex.sq_escaped Hs) at 1.
  rewrite read_quoted_run.
  cbn [append shlex.read_loop in_str shlex.whitespace].
  rewrite Ascii.eqb_refl. cbn [Ascii.eqb Bool.eqb orb].
  now rewrite orb_true_r.
Qed.

Lemma tokens_skip_space rest :
  shlex.tokens (start (" " ++ rest)) = shlex.tokens (start rest).
Proof.
  rewrite (tokens_unfold (start (" " ++ rest))), (tokens_unfold (start rest)).
  reflexivity.
Qed.

(** Joined tokens followed by a space and more text. *)
Lemma tokens_joined l rest r :
  shlex.tokens (start rest) = Ok r ->
  shlex.tokens (start (shlex.join l ++ " " ++ rest)) = Ok (l ++ r)%list.
Proof.
  intros Hr. induction l as [|t l IH].
  - change (shlex.join [] ++ " " ++ rest) with (" " ++ rest).
    now rewrite tokens_skip_space.
  - destruct l as [|t' l].
    + change (shlex.join [t]) with (shlex.quote t).
      apply tokens_after with (lx' := start rest); [|exact Hr].
      apply read_token_next.
    + rewrite join_cons, !append_assoc.
      apply tokens_after
        with (lx' := start (shlex.join (t' :: l) ++ " " ++ rest));
        [|exact IH].
      apply read_token_next.
Qed.

End CommandLine.

Ltac word w := apply (@tokens_word w); [reflexivity..|].

(** X20: the argument text reaches the command line whole.  When the
    configuration text has no single quote, the command line the action
    builds for the container reads, under the word splitting of [shlex]
    that its quoting is made for, as echo, the configuration text as one
    word, the redirection to the configuration file, popeye with that file,
    then exactly the tokens of the argument text, then the options for the
    JSON output and the zero exit status. *)
Theorem command_line_words {PyVal JSON : Type}
        (C : Collaborators PyVal JSON) (params : PopeyeParams PyVal)
        spec tokens :
  build_pod_spec C params = Ok spec ->
  shlex.split (chosen_args params) = Ok tokens ->
  lacks SQ (spinach params) ->
  exists command_line,
    map command (containers spec) = [["/bin/sh"; "-c"; command_line]] /\
    shlex.split command_line = Ok (command_words (spinach params) tokens).
Proof.
  unfold build_pod_spec, sanitize, bind. intros Hb Hs Hq. rewrite Hs in Hb.
  unfold pod_spec, PodSpec_init in Hb.
  destruct (existsb _ _); [discriminate|].
  destruct (negb _); [discriminate|].
  injection Hb as <-. eexists. split; [reflexivity|].
  unfold shlex.split, command_words.
  word "echo". apply tokens_single_quoted; [exact Hq|].
  word ">". word "/tmp/spinach.yaml". word "&&". word "popeye". word "-f".
  word "/tmp/spinach.yaml".
  apply (@tokens_joined tokens "-o json --force-exit-zero").
  word "-o". word "json". now apply tokens_last_word.
Qed.

Lemma command_line_words_witness :
  exists spec command_line,
    build_pod_spec (Reference.collaborators (Ok Reference.minimal_text))
                   (Reference.with_args raw_args) = Ok spec /\
    map command (containers spec) = [["/bin/sh"; "-c"; command_line]] /\
    shlex.split command_line
    = Ok (command_words (spinach Reference.default_params)
            ["-s"; "po,svc"; "--lint-level"; "warn"; "-l"; "it's"]).
Proof.
  destruct (build_pod_spec
              (Reference.collaborators (Ok Reference.minimal_text))
              (Reference.with_args raw_args)) as [spec|e|b] eqn:E;
    [|vm_compute in E; discriminate E..].
  destruct (@command_line_words _ _
              (Reference.collaborators (Ok Reference.minimal_text))
              (Reference.with_args raw_args) spec
              ["-s"; "po,svc"; "--lint-level"; "warn"; "-l"; "it's"]
              E eq_refl eq_refl) as (command_line & Hc & Hs).
  exists spec, command_line. auto.
Defined.
